(** * Droxy: the operation queue, the chain wrapper, the target resolver
      and the promise adapter

    A shallow embedding of the scheduler of [src/index.js] and of the two
    later versions of the package kept in [src/unnamed/part_000] (the
    version with [setErrorHandler] / [promisify], lines 1-484, and the
    refactored two-lane version, lines 485-858).

    JavaScript is run to completion one job at a time.  The embedding
    therefore takes a _job_ as its unit of execution: an outside call of
    [addToQueue] / [prioritize] / [defer], or the continuation of the one
    [await] that is pending in the queue.  [runQueue] is an [async]
    function: it runs on the caller's stack up to its first [await] and
    is resumed by a later job; [await] always gives the stack back, also
    when the awaited value is not a promise.  Jobs may come in any
    order: a statement about every list of jobs holds for every timing
    of the promises involved.

    The definitions come first: [Queue] (the queue of index.js and of
    part_000, lines 65-121), [Trace] (how the record of a run is read),
    [Behaviour] (the whole path of an item), [Refactor] (the two-lane
    queue), [Chain] (chained calls), [Dom] (the resolver and the three
    [addProxy]), [Promisify], [Mutate] (the changes of the page:
    [modifyDOM], [attach], [moveOrClone], [become], [addStyleSheet]),
    [Settling], [Scenarios], [Examples].  The theorems follow:
    [QueueFacts], [Scheduler], [ChainFacts], [ResolverFacts],
    [PromisifyFacts], [MutateFacts], [ArgumentFacts], [LaneFacts],
    [AdapterFacts]. *)

From Stdlib Require Import Ascii.
From stdpp Require Import list strings pretty.

(** ** Work items *)

Module Queue.

Inductive lane := Priority | Main | Deferred.

#[global] Instance lane_eq_dec : EqDecision lane.
Proof. solve_decision. Defined.

Definition error := string.

(** The second argument of the error handler: the message built by
    [giveContext] for a chained method, or the [meta] object of
    [promisify]. *)
Inductive context :=
| Message (s : string)
| Meta (fnName fnArgs : string).

(** What a work item can do that is visible from outside the queue. *)
Inductive output :=
| Effect (what : string)          (* a DOM call, a user callback's side effect *)
| ConsoleError (e : error)        (* console.error(error) *)
| ConsoleWarn (msg : string).     (* console.warn(msg) *)

(** The behaviour of a queued function, as the queue sees it.  A work
    item is one path of execution: synchronous steps, separated by the
    points at which it awaits something. *)
Inductive work :=
| Ret                                        (* returns / its promise fulfils *)
| Throw (e : error)                          (* throws / its promise rejects *)
| Emit (o : output) (k : work)               (* a visible step *)
| Call (l : lane) (t : work) (k : work)      (* calls addToQueue / prioritize / defer of this queue *)
| Wait (k : work)                            (* awaits; [k] runs in a later job *)
| Report (e : error) (c : context) (k : work) (* defaultErrorHandler(e, c) *)
| Try (body : work) (catch : error -> work). (* try { body } catch (error) { catch error } *)

(** The process-wide error hook: [(error, context) -> void].  A hook is
    user code, so it may throw; what else it does is not followed.  The
    name tells the hooks apart in the record. *)
Record handler := Handler {
  hname : string;
  hraises : error -> context -> option error
}.

(** [let defaultErrorHandler = (error, context) => { console.error(...) }] *)
Definition consoleHandler : handler :=
  {| hname := "console.error"; hraises := fun _ _ => None |}.

(** ** The queue and its runner *)

(** The record of what happened, oldest entry first. *)
Inductive entry :=
| Start                           (* runQueue passed its guard: isRunning = true *)
| Pop (l : lane) (t : work)       (* xQueue.shift(), and the item is called *)
| Out (o : output)
| HandlerCall (h : string) (e : error) (c : context)
| Resume                          (* the await of the item in flight returned *)
| Crash (e : error)               (* the await threw: runQueue rejects *)
| Stop.                           (* isRunning = false *)

(** The two [while] loops of [runQueue]. *)
Inductive phase := MainPhase | DeferredPhase.

(** Where the one live invocation of [runQueue] stands.  [Awaiting ph
    (Some k)]: it awaits the item in flight, which itself awaits and
    will go on with [k]; [Awaiting ph None]: the item in flight has
    fulfilled and the continuation of [runQueue] is the next job. *)
Inductive pc :=
| Idle
| Awaiting (ph : phase) (rest : option work)
| Dead.

(** The closure of [createQueue].  An entry [{ fn, args }] of the
    priority or deferred lane is kept as what [fn(...args)] does; an
    entry of the main lane as what [fn()] does. *)
Record state := State {
  priorityQueue : list work;
  mainQueue : list work;
  deferredQueue : list work;
  isRunning : bool;
  runner : pc;
  defaultErrorHandler : handler;
  history : list entry;
  enqueued : list (lane * work)     (* every push so far, oldest first *)
}.

(** [createQueue()] *)
Definition createQueue (h : handler) : state :=
  {| priorityQueue := []; mainQueue := []; deferredQueue := [];
     isRunning := false; runner := Idle;
     defaultErrorHandler := h; history := []; enqueued := [] |}.

Definition record (x : entry) (s : state) : state :=
  {| priorityQueue := priorityQueue s; mainQueue := mainQueue s;
     deferredQueue := deferredQueue s; isRunning := isRunning s;
     runner := runner s; defaultErrorHandler := defaultErrorHandler s;
     history := history s ++ [x]; enqueued := enqueued s |}.

Definition set_runner (r : pc) (s : state) : state :=
  {| priorityQueue := priorityQueue s; mainQueue := mainQueue s;
     deferredQueue := deferredQueue s; isRunning := isRunning s;
     runner := r; defaultErrorHandler := defaultErrorHandler s;
     history := history s; enqueued := enqueued s |}.

Definition set_isRunning (b : bool) (s : state) : state :=
  {| priorityQueue := priorityQueue s; mainQueue := mainQueue s;
     deferredQueue := deferredQueue s; isRunning := b;
     runner := runner s; defaultErrorHandler := defaultErrorHandler s;
     history := history s; enqueued := enqueued s |}.

Definition set_handler (h : handler) (s : state) : state :=
  {| priorityQueue := priorityQueue s; mainQueue := mainQueue s;
     deferredQueue := deferredQueue s; isRunning := isRunning s;
     runner := runner s; defaultErrorHandler := h;
     history := history s; enqueued := enqueued s |}.

Definition lane_of (l : lane) (s : state) : list work :=
  match l with
  | Priority => priorityQueue s
  | Main => mainQueue s
  | Deferred => deferredQueue s
  end.

Definition set_lane (l : lane) (q : list work) (s : state) : state :=
  {| priorityQueue := match l with Priority => q | _ => priorityQueue s end;
     mainQueue := match l with Main => q | _ => mainQueue s end;
     deferredQueue := match l with Deferred => q | _ => deferredQueue s end;
     isRunning := isRunning s; runner := runner s;
     defaultErrorHandler := defaultErrorHandler s; history := history s;
     enqueued := enqueued s |}.

Definition note_push (l : lane) (t : work) (s : state) : state :=
  {| priorityQueue := priorityQueue s; mainQueue := mainQueue s;
     deferredQueue := deferredQueue s; isRunning := isRunning s;
     runner := runner s; defaultErrorHandler := defaultErrorHandler s;
     history := history s; enqueued := enqueued s ++ [(l, t)] |}.

(** [xQueue.push(item)] *)
Definition push (l : lane) (t : work) (s : state) : state :=
  note_push l t (set_lane l (lane_of l s ++ [t]) s).

(** How far an item got on the stack it was given. *)
Inductive residual :=
| Done
| Failed (e : error)
| Suspended (k : work).

(** Run an item on the current stack up to its next [await].  An item
    only ever runs below [runQueue], after [isRunning = true] (line 27)
    and before [isRunning = false] (line 50); when the item calls
    [addToQueue], [prioritize] or [defer], the [runQueue()] inside them
    returns at its guard (line 26, line 65), so that the call is the
    [push] alone (lemmas [exec_isRunning] and [enqueue_running]). *)
Fixpoint exec (t : work) (s : state) : state * residual :=
  match t with
  | Ret => (s, Done)
  | Throw e => (s, Failed e)
  | Emit o k => exec k (record (Out o) s)
  | Call l t' k => exec k (push l t' s)
  | Wait k => (s, Suspended k)
  | Report e c k =>
      let h := defaultErrorHandler s in
      let s' := record (HandlerCall (hname h) e c) s in
      match hraises h e c with
      | Some e' => (s', Failed e')
      | None => exec k s'
      end
  | Try body catch =>
      match exec body s with
      | (s', Done) => (s', Done)
      | (s', Failed e) => exec (catch e) s'
      | (s', Suspended k) => (s', Suspended (Try k catch))
      end
  end.

(** [runQueue] has no [try]: an exception out of [await fn(...)] ends the
    invocation, and line 50 is never reached. *)
Definition crash (e : error) (s : state) : state :=
  record (Crash e) (set_runner Dead s).

(** [await fn(...)]: what the runner does with the item once the stack
    comes back. *)
Definition suspend (ph : phase) (sr : state * residual) : state :=
  match sr with
  | (s, Done) => set_runner (Awaiting ph None) s
  | (s, Suspended k) => set_runner (Awaiting ph (Some k)) s
  | (s, Failed e) => crash e s
  end.

(** [const fn = xQueue.shift(); await fn(...)] *)
Definition invoke (ph : phase) (l : lane) (t : work) (rest : list work)
    (s : state) : state :=
  suspend ph (exec t (record (Pop l t) (set_lane l rest s))).

(** Line 50. *)
Definition finish (s : state) : state :=
  record Stop (set_runner Idle (set_isRunning false s)).

(** Lines 44-47: one turn of the second [while]. *)
Definition deferred_loop (s : state) : state :=
  match deferredQueue s with
  | d :: ds => invoke DeferredPhase Deferred d ds s
  | [] => finish s
  end.

Definition is_empty {A} (l : list A) : bool :=
  match l with [] => true | _ => false end.

(** Lines 39-43: the [if] in front of the second [while]. *)
Definition after_main (s : state) : state :=
  if negb (is_empty (deferredQueue s)) && is_empty (mainQueue s)
     && is_empty (priorityQueue s)
  then deferred_loop s
  else finish s.

(** Lines 29-37: one turn of the first [while]. *)
Definition main_loop (s : state) : state :=
  match priorityQueue s with
  | p :: ps => invoke MainPhase Priority p ps s
  | [] =>
      match mainQueue s with
      | m :: ms => invoke MainPhase Main m ms s
      | [] => after_main s
      end
  end.

(** [async function runQueue()], from its first line to its first
    [await]. *)
Definition runQueue (s : state) : state :=
  if isRunning s then s
  else main_loop (record Start (set_isRunning true s)).

Definition addToQueue (fn : work) (s : state) : state :=
  runQueue (push Main fn s).

Definition prioritize (fn : work) (s : state) : state :=
  runQueue (push Priority fn s).

Definition defer (fn : work) (s : state) : state :=
  let s' := push Deferred fn s in
  if negb (isRunning s') then runQueue s' else s'.

Definition enqueue (l : lane) (fn : work) (s : state) : state :=
  match l with
  | Priority => prioritize fn s
  | Main => addToQueue fn s
  | Deferred => defer fn s
  end.

(** Back at the head of the loop the runner was suspended in. *)
Definition loop (ph : phase) (s : state) : state :=
  match ph with
  | MainPhase => main_loop s
  | DeferredPhase => deferred_loop s
  end.

(** The job that resumes the pending [await]: the item in flight goes
    on, or, when it has fulfilled, [runQueue] does. *)
Definition tick (s : state) : state :=
  match runner s with
  | Idle | Dead => s
  | Awaiting ph (Some k) => suspend ph (exec k s)
  | Awaiting ph None => loop ph (record Resume s)
  end.

(** The jobs. *)
Inductive event :=
| Enqueue (l : lane) (fn : work)
| Tick
| SetErrorHandler (h : handler).

Definition step (e : event) (s : state) : state :=
  match e with
  | Enqueue l fn => enqueue l fn s
  | Tick => tick s
  | SetErrorHandler h => set_handler h s
  end.

Definition run (evs : list event) (s : state) : state :=
  foldl (fun s e => step e s) s evs.

Definition ticks (n : nat) : list event := replicate n Tick.

End Queue.

(** ** Reading the record *)

Module Trace.
Import Queue.

(** The items pushed on lane [l], oldest first. *)
Definition pushes (l : lane) (ps : list (lane * work)) : list work :=
  omap (fun p : lane * work => if decide (p.1 = l) then Some p.2 else None) ps.

(** The items taken from lane [l], oldest first. *)
Definition pops (l : lane) (h : list entry) : list work :=
  omap (fun x => match x with
                 | Pop l' t => if decide (l' = l) then Some t else None
                 | _ => None
                 end) h.

(** One item at a time: [Some b] when no item was taken while another
    was in flight, [b] telling whether one is in flight at the end;
    [None] when two items overlapped.  A crashed runner keeps its item
    in flight for ever. *)
Definition scan_step (st : option bool) (x : entry) : option bool :=
  match st, x with
  | Some false, Pop _ _ => Some true
  | Some true, Pop _ _ => None
  | Some true, Resume => Some false
  | Some false, Resume => None
  | Some true, Crash _ => Some true
  | Some false, Crash _ => None
  | _, _ => st
  end.

Definition scan (h : list entry) : option bool := foldl scan_step (Some false) h.


Definition busy (r : pc) : bool :=
  match r with Idle => false | _ => true end.

(** Entries written by the items themselves. *)
Definition neutral (x : entry) : bool :=
  match x with Out _ | HandlerCall _ _ _ => true | _ => false end.

(** Entries that take nothing from a lane and do not end the runner's
    turn. *)
Definition passive (x : entry) : bool :=
  match x with Out _ | HandlerCall _ _ _ | Crash _ => true | _ => false end.

(** What the record of [s'] has more than the record of [s]. *)
Definition gained (s s' : state) : list entry :=
  drop (length (history s)) (history s').

Definition draining (s : state) : Prop :=
  exists rest, runner s = Awaiting DeferredPhase rest.

(** Every lane is first in, first out. *)
Definition fifo (s : state) : Prop :=
  forall l, pushes l (enqueued s) = pops l (history s) ++ lane_of l s.

(** What holds between two jobs. *)
Definition inv (s : state) : Prop :=
  isRunning s = busy (runner s)
  /\ fifo s
  /\ scan (history s) = Some (busy (runner s))
  /\ (isRunning s = false -> deferredQueue s = []).

(** What holds when [runQueue] is on the stack at the head of one of
    its loops. *)
Definition ready (s : state) : Prop :=
  isRunning s = true /\ fifo s /\ scan (history s) = Some false.

(** What [exec] leaves alone, and what it adds. *)
Record frame (s s' : state) : Prop := Frame {
  fr_running : isRunning s' = isRunning s;
  fr_runner : runner s' = runner s;
  fr_handler : defaultErrorHandler s' = defaultErrorHandler s;
  fr_history : exists es, history s' = history s ++ es
                          /\ Forall (fun x => neutral x = true) es;
  fr_lanes : exists ps, enqueued s' = enqueued s ++ ps
                        /\ forall l, lane_of l s' = lane_of l s ++ pushes l ps
}.

(** What one job does to the record and to the runner. *)
Inductive after_pop (s s1 : state) (ph : phase) (l : lane) (t : work) : Prop :=
| AfterPop es :
    history s1 = history s ++ Pop l t :: es ->
    Forall (fun x => passive x = true) es ->
    (runner s1 = Dead \/ exists r, runner s1 = Awaiting ph r) ->
    after_pop s s1 ph l t.

Inductive looped (ph0 : phase) (s s1 : state) : Prop :=
| LoopPop ph l t :
    after_pop s s1 ph l t ->
    (l = Main -> priorityQueue s = []) ->
    (l <> Deferred -> ph = MainPhase /\ ph0 = MainPhase) ->
    (l = Deferred -> ph = DeferredPhase /\
       (ph0 = MainPhase -> priorityQueue s = [] /\ mainQueue s = [])) ->
    lane_of l s <> [] ->
    looped ph0 s s1
| LoopStop :
    history s1 = history s ++ [Stop] -> runner s1 = Idle ->
    deferredQueue s = [] ->
    looped ph0 s s1.

Inductive stepped (s s1 : state) : Prop :=
| StNone :
    history s1 = history s -> runner s1 = runner s -> stepped s s1
| StItem ph k es :
    runner s = Awaiting ph (Some k) ->
    history s1 = history s ++ es ->
    Forall (fun x => passive x = true) es ->
    (runner s1 = Dead \/ exists r, runner s1 = Awaiting ph r) ->
    stepped s s1
| StStart s0 :
    runner s = Idle ->
    history s0 = history s ++ [Start] ->
    (forall l, lane_of l s `prefix_of` lane_of l s0) ->
    looped MainPhase s0 s1 ->
    stepped s s1
| StResume ph s0 :
    runner s = Awaiting ph None ->
    history s0 = history s ++ [Resume] ->
    (forall l, lane_of l s0 = lane_of l s) ->
    looped ph s0 s1 ->
    stepped s s1.

(** The record only grows. *)
Definition extends (s s1 : state) : Prop :=
  (exists d, history s1 = history s ++ d)
  /\ (exists ps, enqueued s1 = enqueued s ++ ps).

End Trace.

(** ** The whole path of an item *)

Module Behaviour.
Import Queue.

(** Items that call none of the operations of their own queue. *)
Fixpoint quiet (t : work) : Prop :=
  match t with
  | Ret | Throw _ => True
  | Emit _ k | Wait k | Report _ _ k => quiet k
  | Call _ _ _ => False
  | Try body catch => quiet body /\ forall e, quiet (catch e)
  end.

(** What an item writes to the record from its call to its end, the
    number of times it awaits on the way, and how it ends, under the
    error handler [h]. *)
Fixpoint play (h : handler) (t : work) : list entry * nat * option error :=
  match t with
  | Ret => ([], 0, None)
  | Throw e => ([], 0, Some e)
  | Emit o k => let '(es, n, r) := play h k in (Out o :: es, n, r)
  | Call _ _ k => play h k
  | Wait k => let '(es, n, r) := play h k in (es, S n, r)
  | Report e c k =>
      match hraises h e c with
      | Some e' => ([HandlerCall (hname h) e c], 0, Some e')
      | None => let '(es, n, r) := play h k in
                (HandlerCall (hname h) e c :: es, n, r)
      end
  | Try body catch =>
      let '(es, n, r) := play h body in
      match r with
      | None => (es, n, None)
      | Some e => let '(es', n', r') := play h (catch e) in
                  (es ++ es', n + n', r')
      end
  end.

Definition outputs (h : handler) (t : work) : list entry := (play h t).1.1.
Definition awaits (h : handler) (t : work) : nat := (play h t).1.2.
Definition outcome (h : handler) (t : work) : option error := (play h t).2.

Definition records (es : list entry) (s : state) : state :=
  {| priorityQueue := priorityQueue s; mainQueue := mainQueue s;
     deferredQueue := deferredQueue s; isRunning := isRunning s;
     runner := runner s; defaultErrorHandler := defaultErrorHandler s;
     history := history s ++ es; enqueued := enqueued s |}.

(** The jobs of a burst: the items are queued one after the other on
    one stack, then the queue is left to itself for as many jobs as the
    items need. *)
Definition burst (h : handler) (ts : list work) : list event :=
  map (Enqueue Main) ts ++ ticks (sum_list (map (fun t => S (awaits h t)) ts)).

(** The record a first-in, first-out, one-at-a-time run of [t :: ts]
    leaves. *)
Definition in_turn (h : handler) (t : work) (ts : list work) : list entry :=
  Start :: Pop Main t :: outputs h t
  ++ flat_map (fun t' => Resume :: Pop Main t' :: outputs h t') ts
  ++ [Resume; Stop].

End Behaviour.

(** ** The refactored queue (part_000, lines 506-546)

    Two lanes: there is no [prioritize], and the first loop looks at
    [mainQueue] alone.  The state is the same record, whose
    [priorityQueue] the refactored runner never reads. *)

Module Refactor.
Import Queue.

(** Lines 520-525. *)
Definition after_main (s : state) : state :=
  if negb (is_empty (deferredQueue s)) && is_empty (mainQueue s)
  then deferred_loop s
  else finish s.

(** Lines 515-518: one turn of the first [while]. *)
Definition main_loop (s : state) : state :=
  match mainQueue s with
  | m :: ms => invoke MainPhase Main m ms s
  | [] => after_main s
  end.

Definition runQueue (s : state) : state :=
  if isRunning s then s
  else main_loop (record Start (set_isRunning true s)).

Definition addToQueue (fn : work) (s : state) : state :=
  runQueue (push Main fn s).

Definition defer (fn : work) (s : state) : state :=
  let s' := push Deferred fn s in
  if negb (isRunning s') then runQueue s' else s'.

Definition loop (ph : phase) (s : state) : state :=
  match ph with
  | MainPhase => main_loop s
  | DeferredPhase => deferred_loop s
  end.

Definition tick (s : state) : state :=
  match runner s with
  | Idle | Dead => s
  | Awaiting ph (Some k) => suspend ph (exec k s)
  | Awaiting ph None => loop ph (record Resume s)
  end.

Inductive event :=
| AddToQueue (fn : work)
| Defer (fn : work)
| Tick.

Definition step (e : event) (s : state) : state :=
  match e with
  | AddToQueue fn => addToQueue fn s
  | Defer fn => defer fn s
  | Tick => tick s
  end.

Definition run (evs : list event) (s : state) : state :=
  foldl (fun s e => step e s) s evs.

Definition ticks (n : nat) : list event := replicate n Tick.

(** The jobs of a burst on the refactored queue: the items are queued
    one after the other on one stack, then the queue is left to itself
    for as many jobs as the items need. *)
Definition burst (h : handler) (ts : list work) : list event :=
  map AddToQueue ts
  ++ ticks (sum_list (map (fun t => S (Behaviour.awaits h t)) ts)).

End Refactor.

(** ** Chained calls *)

Module Chain.
Import Queue.

Definition value := string.

(** An argument of a chained call: a plain value, or a thenable
    together with the way it settles. *)
Inductive arg :=
| Plain (v : value)
| Thenable (settles : value + error).

(** [for (const arg of args) resolvedArgs.push(isThenable(arg) ? await
    arg : arg)], then [k resolvedArgs].  With [eager = false] (the
    refactored [eachArgument]) a thenable is passed on as it is. *)
Fixpoint resolveArgs (eager : bool) (args resolvedArgs : list arg)
    (k : list arg -> work) : work :=
  match args with
  | [] => k resolvedArgs
  | Plain v :: args' => resolveArgs eager args' (resolvedArgs ++ [Plain v]) k
  | Thenable r :: args' =>
      if eager then
        match r with
        | inl v => Wait (resolveArgs eager args' (resolvedArgs ++ [Plain v]) k)
        | inr e => Wait (Throw e)
        end
      else resolveArgs eager args' (resolvedArgs ++ [Thenable r]) k
  end.

(** A function handed to [applyFunc]: what [fn(...resolvedArgs)] does,
    including, when its result is a thenable, the wait for it
    ([if (isThenable(result)) await result]). *)
Definition action := list arg -> work.

(** [giveContext(methodName, selector)]; a missing [methodName] prints
    as [undefined]. *)
Definition giveContext (methodName : option string) (selector : string)
    : string :=
  match methodName with
  | Some "$" => "$" +:+ selector
  | Some "$$" => "$$" +:+ selector
  | _ => "The method: " +:+ default "undefined" methodName
         +:+ " called on: " +:+ selector
  end.

(** The three versions of the function that is pushed by a chained call. *)

(** index.js, lines 82-95. *)
Definition thunk_original (fn : action) (args : list arg) : work :=
  Try (resolveArgs true args [] fn) (fun error => Emit (ConsoleError error) Ret).

(** part_000, lines 128-141. *)
Definition thunk_handled (fn : action) (context : string) (args : list arg)
    : work :=
  Try (resolveArgs true args [] fn)
      (fun error => Report error (Message context) Ret).

(** part_000, lines 585-595: the body of the [async] function
    [eachArgument]. *)
Definition eachArgument (fn : action) (args : list arg) (eager : bool) : work :=
  resolveArgs eager args [] fn.

(** [t], with one more [await] where it ends without an error. *)
Fixpoint on_success (t : work) : work :=
  match t with
  | Ret => Wait Ret
  | Throw e => Throw e
  | Emit o k => Emit o (on_success k)
  | Call l t' k => Call l t' (on_success k)
  | Wait k => Wait (on_success k)
  | Report e c k => Report e c (on_success k)
  | Try body catch => Try (on_success body) (fun e => on_success (catch e))
  end.

(** [await f()] for an [async] function [f] whose body is [t]: when the
    body has ended, the promise of the call is settled, and the [await]
    on it gives the stack back once more before it goes on, or
    throws. *)
Definition awaited (t : work) : work :=
  Try (on_success t) (fun e => Wait (Throw e)).

(** part_000, lines 551-557. *)
Definition thunk_refactored (fn : action) (args : list arg) (eager : bool)
    : work :=
  Try (awaited (eachArgument fn args eager))
      (fun error => Emit (ConsoleError error) Ret).

(** A facade: the proxy, what it stands for, and its queue. *)
Record facade {target : Type} := Facade {
  selector : string;
  raw : target;
  queue : state
}.
Arguments facade : clear implicits.
Arguments Facade {target} _ _ _.

Definition with_queue {T} (q : state) (f : facade T) : facade T :=
  {| selector := selector f; raw := raw f; queue := q |}.

(** [applyFunc(fn, context)(...args)]: push, run the queue if it is
    idle, [return proxy()]. *)
Definition applyFunc_original {T} (fn : action) (args : list arg)
    (f : facade T) : facade T :=
  with_queue (addToQueue (thunk_original fn args) (queue f)) f.

Definition applyFunc {T} (fn : action) (context : string) (args : list arg)
    (f : facade T) : facade T :=
  with_queue (addToQueue (thunk_handled fn context args) (queue f)) f.

Definition queueFunction {T} (fn : action) (eager : bool) (args : list arg)
    (f : facade T) : facade T :=
  with_queue (Refactor.addToQueue (thunk_refactored fn args eager) (queue f)) f.

(** [makeMethod(action, context)] of part_000, line 188: the context of
    the method is [giveContext(context, selector)]. *)
Definition makeMethod {T} (fn : action) (context : option string)
    (args : list arg) (f : facade T) : facade T :=
  applyFunc fn (giveContext context (selector f)) args f.

End Chain.

(** ** The target resolver *)

Module Dom.
Import Queue Chain.

(** A node of the page, by identity. *)
Definition element := nat.

(** The page: its elements in document order, and the identity the next
    node made will get. *)
Record document := Document {
  content : list element;
  fresh : element
}.

(** Calls of the DOM API. *)
Inductive domcall :=
| CreateElement (tag : string) (e : element)
| SetHTML (e : element) (markup : string)        (* e.setHTML(markup) *)
| SetInnerHTML (e : element) (markup : string)   (* e.innerHTML = markup *)
| QuerySelector (sel : string)
| QuerySelectorAll (sel : string).

(** What [getDOMElement] is given: a string or an element.  (Any other
    object is handed to [querySelector] as it is; the refactored version
    also takes a NodeList.) *)
Inductive item :=
| Str (s : string)
| Node (e : element).



(** Strings hold text in UTF-8.  The white space and line terminators
    that [String.prototype.trim] removes, each as its bytes: U+0009 to
    U+000D, U+0020, U+00A0, U+1680, U+2000 to U+200A, U+2028, U+2029,
    U+202F, U+205F, U+3000 and U+FEFF. *)
Definition bytes (l : list N) : string :=
  foldr (fun n s => String (Ascii.ascii_of_N n) s) EmptyString l.

Definition white : list string :=
  map bytes
    [[9]; [10]; [11]; [12]; [13]; [32]; [194; 160]; [225; 154; 128];
     [226; 128; 128]; [226; 128; 129]; [226; 128; 130]; [226; 128; 131];
     [226; 128; 132]; [226; 128; 133]; [226; 128; 134]; [226; 128; 135];
     [226; 128; 136]; [226; 128; 137]; [226; 128; 138]; [226; 128; 168];
     [226; 128; 169]; [226; 128; 175]; [226; 129; 159]; [227; 128; 128];
     [239; 187; 191]]%N.

(** What is left of [s] after [w], when [s] begins with [w]. *)
Fixpoint strip (w s : string) : option string :=
  match w, s with
  | EmptyString, _ => Some s
  | String a w', String b s' => if Ascii.eqb a b then strip w' s' else None
  | String _ _, EmptyString => None
  end.

(** What is left of [s] after one white space, when it begins with one. *)
Definition skip_space (s : string) : option string :=
  head (omap (fun w => strip w s) white).

Fixpoint trimStart_from (fuel : nat) (s : string) : string :=
  match fuel with
  | 0 => s
  | S fuel' =>
      match skip_space s with
      | Some s' => trimStart_from fuel' s'
      | None => s
      end
  end.

(** Every white space taken off shortens the string: its length is fuel
    enough. *)
Definition trimStart (s : string) : string :=
  trimStart_from (String.length s) s.

(** The string is cut where all that follows is white space. *)
Fixpoint trimEnd (s : string) : string :=
  match s with
  | EmptyString => EmptyString
  | String a s' =>
      match trimStart s with
      | EmptyString => EmptyString
      | _ => String a (trimEnd s')
      end
  end.

Definition trim (s : string) : string := trimEnd (trimStart s).

Definition startsWith (s p : string) : bool := String.prefix p s.

(** What [getDOMElement] gives: an array of elements, [null] included,
    with the page as the call leaves it and the DOM calls that
    returned; or, in [raised], the string that [querySelector] or
    [querySelectorAll] threw a [SyntaxError] on, with nothing else. *)
Record resolved := Resolved {
  elements : list (option element);
  page : document;
  calls : list domcall;
  raised : option string
}.



(** What the three versions of [addProxy] give back. *)
Inductive made (T : Type) :=
| Threw (e : error)
| Reported (h : string) (e : error) (c : context)   (* returns the handler's result *)
| Made (f : facade T) (console : list output).
Arguments Threw {T} _.
Arguments Reported {T} _ _ _.
Arguments Made {T} _ _.

(** The target of a facade of index.js: [element[1] ? element :
    element[0]]. *)
Inductive target :=
| Single (e : option element)
| Many (l : list (option element)).

Section Browser.

(** Whether the browser takes the string for a selector: a query for
    any other string (the empty string, say) throws a [SyntaxError]. *)
Variable valid : string -> bool.

(** [el.matches(selector)], for the elements of the page. *)
Variable matches : string -> element -> bool.

(** The number of element children the HTML parser makes of a markup
    string, through the sanitizer ([true], [setHTML]) or without it
    ([false], [innerHTML]). *)
Variable parse : bool -> string -> nat.

Definition querySelectorAll (sel : string) (d : document) : list element :=
  List.filter (matches sel) (content d).

Definition querySelector (sel : string) (d : document) : option element :=
  head (querySelectorAll sel d).

(** [createDOMFromString(string, sanitize = true)]: a new [div], not
    attached to the page, is filled by the parser; its children are
    returned. *)
Definition createDOMFromString (string : string) (sanitize : option bool)
    (d : document) : resolved :=
  let div := fresh d in
  let sanitize := default true sanitize in
  let n := parse sanitize string in
  {| elements := map Some (seq (S div) n);
     page := {| content := content d; fresh := S div + n |};
     calls := [CreateElement "div" div;
               if sanitize then SetHTML div string
               else SetInnerHTML div string];
     raised := None |}.

(** [getDOMElement(item, sanitize = true, all = false)] *)
Definition getDOMElement (item : item) (sanitize all : option bool)
    (d : document) : resolved :=
  match item with
  | Str s =>
      if startsWith (trim s) "<" then createDOMFromString s sanitize d
      else if negb (valid s)
      then {| elements := []; page := d; calls := []; raised := Some s |}
      else if default false all
      then {| elements := map Some (querySelectorAll s d); page := d;
              calls := [QuerySelectorAll s]; raised := None |}
      else {| elements := [querySelector s d]; page := d;
              calls := [QuerySelector s]; raised := None |}
  | Node e => {| elements := [Some e]; page := d; calls := [];
                 raised := None |}
  end.







End Browser.

End Dom.

(** ** The promise adapter (part_000, lines 13-50) *)

Module Promisify.
Import Queue.

(** What is handed to [resolve]: a value, or a thenable, which the
    promise then follows. *)
Inductive resolution :=
| Value (v : string)
| Follow (thenable : nat).

Inductive promise :=
| Pending
| Fulfilled (v : string)
| Rejected (reason : error)
| Following (thenable : nat).

(** The [resolve] and [reject] of [new Promise]: they act once. *)
Definition resolve (x : resolution) (p : promise) : promise :=
  match p with
  | Pending => match x with Value v => Fulfilled v | Follow t => Following t end
  | _ => p
  end.

Definition reject (reason : error) (p : promise) : promise :=
  match p with
  | Pending => Rejected reason
  | _ => p
  end.

Record state := State {
  settled : bool;
  outcome : promise;
  decided : option nat;               (* when [outcome] left [Pending] *)
  defaultErrorHandler : handler;
  reports : list (string * error * context)   (* calls of the error handler *)
}.

Definition decide_at (now : nat) (p p' : promise) (d : option nat) : option nat :=
  match p, p' with
  | Pending, Pending => d
  | Pending, _ => Some now
  | _, _ => d
  end.

Definition set_outcome (now : nat) (p' : promise) (s : state) : state :=
  {| settled := true; outcome := p';
     decided := decide_at now (outcome s) p' (decided s);
     defaultErrorHandler := defaultErrorHandler s; reports := reports s |}.

(** Lines 22-27. *)
Definition Resolve (now : nat) (value : resolution) (s : state) : state :=
  if negb (settled s) then set_outcome now (resolve value (outcome s)) s else s.

(** Lines 29-34. *)
Definition Reject (now : nat) (reason : error) (s : state) : state :=
  if negb (settled s) then set_outcome now (reject reason (outcome s)) s else s.

(** What the timer resolves the promise with: the empty string. *)
Definition empty_result : resolution := Value EmptyString.

Definition timeout_error (timeout : nat) : error :=
  "Timeout: " +:+ pretty timeout +:+ "ms exceeded.".

(** The delay of [setTimeout(f, timeout)]: the number is converted to a
    signed integer of 32 bits, by wrapping it round, and a negative
    delay is 0.  Up to 2147483647 the delay is the number itself. *)
Definition delay (timeout : nat) : nat :=
  let wrapped := (N.of_nat timeout mod 4294967296)%N in
  if (wrapped <? 2147483648)%N then N.to_nat wrapped else 0.

(** Lines 36-45: the callback of [setTimeout], which runs when the delay
    is over. *)
Definition timer (timeout : nat) (meta : context) (s : state) : state :=
  if negb (settled s) then
    let s' := set_outcome (delay timeout)
                (resolve empty_result (outcome s)) s in
    {| settled := settled s'; outcome := outcome s'; decided := decided s';
       defaultErrorHandler := defaultErrorHandler s';
       reports := reports s'
                  ++ [(hname (defaultErrorHandler s'), timeout_error timeout,
                       meta)] |}
  else s.

(** What [fn] and the rest of the page do. *)
Inductive call :=
| CallResolve (value : resolution)
| CallReject (reason : error)
| SetErrorHandler (h : handler).

Definition apply (now : nat) (c : call) (s : state) : state :=
  match c with
  | CallResolve value => Resolve now value s
  | CallReject reason => Reject now reason s
  | SetErrorHandler h =>
      {| settled := settled s; outcome := outcome s; decided := decided s;
         defaultErrorHandler := h; reports := reports s |}
  end.

(** The function that is wrapped: the calls it makes before it returns,
    whether it throws instead of returning, and the calls made later,
    each with the time that has passed since the one before. *)
Record behaviour := Behaviour {
  at_once : list call;
  throws : option error;
  later : list (nat * call)
}.

(** [new Promise(executor)]: an executor that throws rejects the
    promise. *)
Definition executor (b : behaviour) (s : state) : state :=
  let s' := foldl (fun s c => apply 0 c s) s (at_once b) in
  match throws b with
  | Some e =>
      {| settled := settled s'; outcome := reject e (outcome s');
         decided := decide_at 0 (outcome s') (reject e (outcome s')) (decided s');
         defaultErrorHandler := defaultErrorHandler s'; reports := reports s' |}
  | None => s'
  end.

(** The later calls in the order of time; the timer is due at
    [delay timeout], before a call that is made at that very time. *)
Fixpoint elapse (timeout : nat) (meta : context) (now : nat) (fired : bool)
    (evs : list (nat * call)) (s : state) : state :=
  match evs with
  | [] => if fired then s else timer timeout meta s
  | (gap, c) :: evs' =>
      if negb fired && (delay timeout <=? now + gap)
      then elapse timeout meta (now + gap) true evs'
             (apply (now + gap) c (timer timeout meta s))
      else elapse timeout meta (now + gap) fired evs' (apply (now + gap) c s)
  end.

Definition default_meta : context := Meta "anonymous" "unknown".

(** [promisify(fn, timeout = 5000, meta = {...})(...args)], from the
    call to the end of what [fn] and the page do. *)
Definition promisify (fn : behaviour) (timeout : option nat)
    (meta : option context) (h : handler) : state :=
  let timeout := default 5000 timeout in
  let meta := default default_meta meta in
  elapse timeout meta 0 false (later fn)
    (executor fn {| settled := false; outcome := Pending; decided := None;
                    defaultErrorHandler := h; reports := [] |}).

(** The jobs after the promise was made, without the clock. *)
Inductive job :=
| Outside (now : nat) (c : call)
| Timer.

Definition job_step (timeout : nat) (meta : context) (j : job) (s : state)
    : state :=
  match j with
  | Outside now c => apply now c s
  | Timer => timer timeout meta s
  end.

Definition run_jobs (timeout : nat) (meta : context) (js : list job)
    (s : state) : state :=
  foldl (fun s j => job_step timeout meta j s) s js.

(** The later calls that come before the timer is due. *)
Fixpoint early (timeout now : nat) (evs : list (nat * call)) : list call :=
  match evs with
  | [] => []
  | (gap, c) :: evs' =>
      if delay timeout <=? now + gap then []
      else c :: early timeout (now + gap) evs'
  end.

(** Neither [Resolve] nor [Reject]. *)
Definition no_callback (c : call) : bool :=
  match c with SetErrorHandler _ => true | _ => false end.

(** The error handler in place after the calls [cs]. *)
Definition handler_after (h : handler) (cs : list call) : handler :=
  foldl (fun h c => match c with SetErrorHandler h' => h' | _ => h end) h cs.

End Promisify.

(** ** Changes of the page (index.js, lines 297-389)

    [modifyDOM], [attach], [moveOrClone], [become] and [addStyleSheet]
    act on the page through the DOM API alone.  They are embedded as
    programs that write down the calls they make, in order, and give
    new nodes their identity; what the browser does with a call is not
    followed.  Reading a member of [null] raises a [TypeError] and ends
    the program where it stands. *)

Module Mutate.
Import Queue Chain Dom.

(** The keys of the table [DOMActions]. *)
Inductive DOMAction := append | prepend | before | after.

Definition action_name (a : DOMAction) : string :=
  match a with
  | append => "append" | prepend => "prepend"
  | before => "before" | after => "after"
  end.

(** The value of [position]: a key of [DOMActions], or any other value,
    for which [DOMActions[position]] is [undefined]. *)
Inductive place_key :=
| Key (a : DOMAction)
| NoKey.

(** An options object; a key that is absent is [None]. *)
Record options := Options {
  position : option place_key;
  sanitize : option bool;
  mode : option string;
  all : option bool;
  match_ : option string
}.

(** [{}] *)
Definition no_options : options := Options None None None None None.

Inductive exception :=
| TypeError (reading : string)     (* a member of [null] was read, or
                                      [undefined] was called *)
| SyntaxError (sel : string).      (* [querySelector] was given no selector *)

(** The calls that are written down. *)
Inductive mutation :=
| Api (c : domcall)
| CloneNode (e new : element)                  (* new = e.cloneNode(true) *)
| Insert (how : DOMAction) (parent : element) (child : option element)
| ReplaceWith (e new : element)                (* e.replaceWith(new) *)
| Remove (e : element)                         (* e.remove() *)
| SetTextContent (e : element) (text : string) (* e.textContent = text *)
| HeadAppendChild (e : element).               (* document.head.appendChild(e) *)

Record world := World {
  log : list mutation;
  doc : document
}.

(** A program over the page that may throw. *)
Definition M (A : Type) : Type := world -> (A + exception) * world.

#[export] Instance M_ret : MRet M := fun A a s => (inl a, s).

#[export] Instance M_bind : MBind M := fun A B f m s =>
  match m s with
  | (inl a, s') => f a s'
  | (inr e, s') => (inr e, s')
  end.

Definition throw {A} (e : exception) : M A := fun s => (inr e, s).

Definition call (m : mutation) : M unit :=
  fun s => (inl tt, {| log := log s ++ [m]; doc := doc s |}).

(** A new node. *)
Definition new_node (made : element -> mutation) : M element :=
  fun s =>
    let new := fresh (doc s) in
    (inl new,
     {| log := log s ++ [made new];
        doc := {| content := content (doc s); fresh := S new |} |}).

(** [e.cloneNode(true)] *)
Definition cloneNode (e : option element) : M (option element) :=
  match e with
  | None => throw (TypeError "cloneNode")
  | Some e => new ← new_node (CloneNode e); mret (Some new)
  end.

(** [e.replaceWith(new)] and [e.remove()] *)
Definition replaceWith (e : option element) (new : element) : M unit :=
  match e with
  | None => throw (TypeError "replaceWith")
  | Some e => call (ReplaceWith e new)
  end.

Definition remove (e : option element) : M unit :=
  match e with
  | None => throw (TypeError "remove")
  | Some e => call (Remove e)
  end.

(** [l.forEach((x, index) => f(x, index))], counting from [index]. *)
Fixpoint forEachFrom {A} (index : nat) (l : list A) (f : A -> nat -> M unit)
    : M unit :=
  match l with
  | [] => mret tt
  | x :: l' => _ ← f x index; forEachFrom (S index) l' f
  end.

Definition forEach {A} (l : list A) (f : A -> M unit) : M unit :=
  forEachFrom 0 l (fun x _ => f x).

(** What a program does on a page on which nothing was done yet. *)
Definition run {A} (m : M A) (d : document) : (A + exception) * world :=
  m {| log := []; doc := d |}.

Definition done {A} (r : (A + exception) * world) : list mutation := log r.2.

Definition thrown {A} (r : (A + exception) * world) : option exception :=
  match r.1 with inl _ => None | inr e => Some e end.

(** A child handed to [modifyDOM]: something [getDOMElement] knows, or
    another object, one with neither a [sanitize] nor a [position]
    property, which [querySelector] reads as the string
    ["[object Object]"]. *)
Inductive child :=
| Known (i : item)
| Object.

(** An element of a facade as a child: [null] is read by
    [querySelector] as the string ["null"]. *)
Definition child_of (el : option element) : child :=
  match el with
  | Some e => Known (Node e)
  | None => Known (Str "null")
  end.

(** An argument of [attach]. *)
Inductive argument :=
| Arg (c : child)
| Array (l : list child)
| Opts (o : options).

(** What [become] is given: a facade with the target it stands for, an
    element or [null], or an array. *)
Inductive candidate :=
| Proxy (raw : element + list (option element))
| Element (e : option element)
| Elements (l : list (option element)).

(** [isSingle ? func(target) : target.forEach((el) => func(el))], where
    [updateProxy] has set [isSingle] to [!(target instanceof Array)]. *)
Definition toOneOrMany (t : target) (func : option element -> M unit)
    : M unit :=
  match t with
  | Single e => func e
  | Many l => forEach l func
  end.

(** [for (const a of s.split(sep))], for a separator of one character. *)
Fixpoint split (sep : Ascii.ascii) (s : string) : list string :=
  match s with
  | EmptyString => [EmptyString]
  | String a s' =>
      if Ascii.eqb a sep then EmptyString :: split sep s'
      else match split sep s' with
           | piece :: pieces => String a piece :: pieces
           | [] => [String a EmptyString]
           end
  end.

Fixpoint join (sep : string) (l : list string) : string :=
  match l with
  | [] => EmptyString
  | [piece] => piece
  | piece :: l' => piece +:+ sep +:+ join sep l'
  end.

(** index.js, lines 297-301. *)
Definition addStyleSheet (rules : string) : M unit :=
  style ← new_node (fun e => Api (CreateElement "style" e));
  _ ← call (SetTextContent style rules);
  call (HeadAppendChild style).

(** part_000, lines 755-760. *)
Definition importantRules (rules : string) : string :=
  join " !important;" (split ";" (trim rules)).

Definition addStyleSheet_refactored (rules : string) : M unit :=
  addStyleSheet (importantRules rules).

(** [candidate.raw || candidate], then [makeArray]; lines 342-347. *)
Definition makeArray (c : candidate) : M (list (option element)) :=
  match c with
  | Proxy (inl e) => mret [Some e]
  | Proxy (inr l) => mret l
  | Element (Some e) => mret [Some e]
  | Element None => throw (TypeError "raw")
  | Elements l => mret l
  end.

(** [handleReplacement], lines 336-341, for a replacement that is there. *)
Definition handleReplacement (options : options) (element : option element)
    (replacement : Dom.element) : M unit :=
  newElement ← (if bool_decide (mode options = Some "clone")
                then new_node (CloneNode replacement)
                else mret replacement);
  replaceWith element newElement.

(** [{ mode: "clone", match: "cycle" }] *)
Definition become_default : options :=
  Options None None (Some "clone") None (Some "cycle").

(** Lines 331-361. *)
Definition become (elements replacements : candidate)
    (options : option options) : M unit :=
  let options := default become_default options in
  elementsArray ← makeArray elements;
  replacementsArray ← makeArray replacements;
  forEachFrom 0 elementsArray (fun element index =>
    let replacement :=
      if bool_decide (match_ options = Some "cycle")
      then match length replacementsArray with
           | 0 => None      (* [index % 0] is [NaN] *)
           | S _ as n => default None (replacementsArray !! (index mod n))
           end
      else default None (replacementsArray !! index) in
    match replacement with
    | Some replacement => handleReplacement options element replacement
    | None =>
        if bool_decide (match_ options = Some "remove") then remove element
        else mret tt
    end).

Section Browser.
Variable valid : string -> bool.
Variable matches : string -> element -> bool.
Variable parse : bool -> string -> nat.

(** A node read as an options object: [Some] when the node has a
    [sanitize] or a [position] property (a [progress] element has
    [position], a number), with the values of its properties. *)
Variable as_options : element -> option options.

(** [getDOMElement(child, sanitize, all)] *)
Definition getDOM (c : child) (sanitize all : option bool)
    : M (list (option element)) :=
  match c with
  | Known i => fun s =>
      let r := getDOMElement valid matches parse i sanitize all (doc s) in
      match raised r with
      | Some sel => (inr (SyntaxError sel), s)
      | None =>
          (inl (elements r),
           {| log := log s ++ map Api (calls r); doc := page r |})
      end
  | Object => throw (SyntaxError "[object Object]")
  end.

(** [DOMActions[position](parent, child)] *)
Definition DOMActions (position : place_key) (parent child : option element)
    : M unit :=
  match position with
  | Key a =>
      match parent with
      | Some p => call (Insert a p child)
      | None => throw (TypeError (action_name a))
      end
  | NoKey => throw (TypeError "DOMActions[position]")
  end.

(** Lines 370-389. *)
Definition modifyDOM (parent : option element) (children : list child)
    (options : options) : M unit :=
  let position := default (Key append) (position options) in
  let sanitize := default true (sanitize options) in
  let mode := default "move" (mode options) in
  let getCloneOrNode := fun el =>
    if String.eqb mode "clone" then cloneNode el else mret el in
  forEach children (fun child =>
    domElements ← getDOM child (Some sanitize) None;
    forEach domElements (fun domElement =>
      node ← getCloneOrNode domElement;
      DOMActions position parent node)).

(** [args.flat()] *)
Definition flat (args : list argument) : list child :=
  flat_map (fun a => match a with
                     | Arg c => [c]
                     | Array l => l
                     | Opts _ => [Object]
                     end) args.

(** [args[args.length - 1] instanceof Object && ("sanitize" in ... ||
    "position" in ...) ? args.pop() : {}]: the options, and the
    arguments that are left.  The test is made on whatever comes last: a
    node that has one of the two properties is taken for the options;
    an array has neither, and a string is no object. *)
Definition pop_options (args : list argument) : options * list argument :=
  match last args with
  | Some (Opts o) =>
      if bool_decide (is_Some (sanitize o) \/ is_Some (position o))
      then (o, removelast args)
      else (no_options, args)
  | Some (Arg (Known (Node e))) =>
      match as_options e with
      | Some o => (o, removelast args)
      | None => (no_options, args)
      end
  | _ => (no_options, args)
  end.

(** Lines 303-313. *)
Definition attach (element : option element) (args : list argument) : M unit :=
  let '(options, args) := pop_options args in
  let children := flat args in
  modifyDOM element children options.

(** Lines 315-329. *)
Definition moveOrClone (elements : list child) (parentSelector : child)
    (options : options) : M unit :=
  parents ← getDOM parentSelector (sanitize options) (all options);
  if bool_decide (length parents = 0) then mret tt
  else forEach parents (fun parent => modifyDOM parent elements options).

(** [{ mode: m, ...options }] *)
Definition with_mode (m : string) (o : option options) : options :=
  match o with
  | None => Options None None (Some m) None None
  | Some o =>
      Options (position o) (sanitize o) (Some (default m (mode o))) (all o)
              (match_ o)
  end.

(** What the methods of a facade hand to [makeMethod], applied to the
    target by [toOneOrMany]; lines 189 and 209-221. *)
Definition cloneTo (t : target) (parentSelector : child)
    (options : option options) : M unit :=
  toOneOrMany t (fun el =>
    moveOrClone [child_of el] parentSelector (with_mode "clone" options)).

Definition moveTo (t : target) (parentSelector : child)
    (options : option options) : M unit :=
  toOneOrMany t (fun el =>
    moveOrClone [child_of el] parentSelector (with_mode "move" options)).

Definition attach_method (t : target) (children : list argument) : M unit :=
  toOneOrMany t (fun el => attach el children).

End Browser.


Definition addStyleSheet_method (t : target) (rules : string) : M unit :=
  toOneOrMany t (fun _ => addStyleSheet rules).

(** How a log reads: the calls by which [e] is replaced with [r], or
    with the copy [new] of it; the calls by which [e], or the copy [new]
    of it, is put at [p]; the calls of one [addStyleSheet]. *)
Definition cloning (mode : option string) : bool :=
  bool_decide (mode = Some "clone").


(** The key at which the options put a node, [append] when they give
    none; [None] when they give a value that is no key. *)
Definition placed (o : options) : option DOMAction :=
  match position o with
  | None => Some append
  | Some (Key a) => Some a
  | Some NoKey => None
  end.





Definition sheet (rules : string) (style : element) : list mutation :=
  [Api (CreateElement "style" style); SetTextContent style rules;
   HeadAppendChild style].

(** [s.replaceAll(c, by)], read one character at a time. *)
Fixpoint replaceAll (c : Ascii.ascii) (by_ : string) (s : string) : string :=
  match s with
  | EmptyString => EmptyString
  | String a s' =>
      if Ascii.eqb a c then by_ +:+ replaceAll c by_ s'
      else String a (replaceAll c by_ s')
  end.

End Mutate.

(** ** How the arguments of a chained call settle *)

Module Settling.
Import Queue Chain.

Definition is_thenable (a : arg) : bool :=
  match a with Thenable _ => true | Plain _ => false end.

(** An argument that does not reject. *)
Definition fulfils (a : arg) : bool :=
  match a with Thenable (inr _) => false | _ => true end.

(** What [await arg] gives for an argument that does not reject. *)
Definition settle (a : arg) : arg :=
  match a with Thenable (inl v) => Plain v | _ => a end.

Definition thenables (args : list arg) : nat :=
  length (List.filter is_thenable args).

End Settling.

(** ** Items and runs used as examples *)

Module Scenarios.
Import Queue.

Definition say (what : string) : work := Emit (Effect what) Ret.

(** Fulfils at once; awaits twice; awaits once. *)
Definition item_a : work := say "a".
Definition item_c : work := Wait (say "c").

(** [item_c] suspended at its await, [item_a] waiting in the main lane. *)
Definition c_in_flight : list event :=
  [Enqueue Main item_c; Enqueue Main item_a].

(** A deferred function that calls a chained method of its own queue,
    and a second deferred function. *)
Definition deferred_1 : work := Call Main (say "m") Ret.
Definition deferred_2 : work := say "d2".

Definition two_deferred : list event :=
  [Enqueue Deferred deferred_1; Enqueue Deferred deferred_2].

(** A click handler that throws, queued by the listener that [on]
    installs ([prioritize(fn, args)]), and a chained call made after. *)
Definition handler_throws : list event :=
  [Enqueue Priority (Throw "boom"); Enqueue Main (say "later")].

(** [text("hi")] on a facade whose queue is idle. *)
Definition set_text : Chain.action := fun _ => say "textContent = hi".

Definition fresh_facade : Chain.facade nat :=
  Chain.Facade "#title" 0 (createQueue consoleHandler).

(** Three chained calls, the second of which fails after an await. *)
Definition fails_late : Chain.action :=
  fun _ => Emit (Effect "animate") (Wait (Throw "aborted")).

Definition three_calls : list (Chain.action * string * list Chain.arg) :=
  [(set_text, Chain.giveContext (Some "text") "#title", [Chain.Plain "hi"]);
   (fails_late, Chain.giveContext (Some "transition") "#title",
    [Chain.Thenable (inl "keyframes")]);
   (set_text, Chain.giveContext (Some "text") "#title", [Chain.Plain "hi"])].

(** A page of three elements none of which matches, and a parser that
    makes one element of any markup.  Every string but the empty one is
    taken for a selector. *)
Definition page_3 : Dom.document := Dom.Document [1; 2; 3] 4.
Definition no_match : string -> Dom.element -> bool := fun _ _ => false.
Definition not_empty : string -> bool :=
  fun sel => negb (String.eqb sel EmptyString).
Definition one_child : bool -> string -> nat := fun _ _ => 1.

(** A wrapped function that never calls back; one that throws at once;
    one that resolves after 20ms and rejects after 100ms. *)
Definition never_calls : Promisify.behaviour := Promisify.Behaviour [] None [].
Definition throws_at_once : Promisify.behaviour :=
  Promisify.Behaviour [] (Some "boom") [].
Definition calls_twice : Promisify.behaviour :=
  Promisify.Behaviour [] None
    [(20, Promisify.CallResolve (Promisify.Value "first"));
     (80, Promisify.CallReject "second")].

End Scenarios.


(** ** Pages and actions used as examples of the changes *)

Module Examples.
Import Queue.


(** An action that shows the arguments it is given. *)
Definition show_args : Chain.action :=
  fun args => Scenarios.say
    (String.concat ","
       (map (fun a => match a with
                      | Chain.Plain v => v
                      | Chain.Thenable _ => "thenable"
                      end) args)).


Definition copies : Mutate.options :=
  Mutate.Options None None (Some "clone") None None.




End Examples.

Module QueueFacts.
Import Queue Trace Behaviour.

Lemma pushes_app l ps qs : pushes l (ps ++ qs) = pushes l ps ++ pushes l qs.
Proof. apply omap_app. Qed.

Lemma pops_app l h k : pops l (h ++ k) = pops l h ++ pops l k.
Proof. apply omap_app. Qed.

Lemma pops_neutral l es : Forall (fun x => neutral x = true) es -> pops l es = [].
Proof.
  induction 1 as [|x es Hx _ IH]; [done|].
  destruct x; simpl in *; try discriminate; exact IH.
Qed.

Lemma scan_app h k : scan (h ++ k) = foldl scan_step (scan h) k.
Proof. unfold scan. apply foldl_app. Qed.

Lemma scan_neutral st es :
  Forall (fun x => neutral x = true) es -> foldl scan_step st es = st.
Proof.
  intros H. revert st. induction H as [|x es Hx _ IH]; intros st; [done|].
  simpl. rewrite IH. destruct x; simpl in *; try discriminate;
    destruct st as [[]|]; reflexivity.
Qed.

Lemma frame_refl s : frame s s.
Proof.
  split; try done.
  - exists []. by rewrite app_nil_r.
  - exists []. split; [by rewrite app_nil_r|]. intros l. by rewrite app_nil_r.
Qed.

Lemma frame_trans s1 s2 s3 : frame s1 s2 -> frame s2 s3 -> frame s1 s3.
Proof.
  intros [a1 b1 c1 (e1 & h1 & n1) (p1 & q1 & l1)]
         [a2 b2 c2 (e2 & h2 & n2) (p2 & q2 & l2)].
  split; try congruence.
  - exists (e1 ++ e2). split; [by rewrite h2, h1, app_assoc|].
    by apply Forall_app.
  - exists (p1 ++ p2). split; [by rewrite q2, q1, app_assoc|].
    intros l. by rewrite l2, l1, pushes_app, app_assoc.
Qed.

Lemma frame_record_neutral x s : neutral x = true -> frame s (record x s).
Proof.
  intros Hx. split; try done.
  - exists [x]. split; [done|]. by constructor.
  - exists []. split; [by rewrite app_nil_r|]. intros l. by rewrite app_nil_r.
Qed.

Lemma frame_push l t s : frame s (push l t s).
Proof.
  split; try done.
  - exists []. by rewrite app_nil_r.
  - exists [(l, t)]. split; [done|].
    intros l'. destruct l, l'; cbn; by rewrite ?app_nil_r.
Qed.

Lemma exec_frame t : forall s s' r, exec t s = (s', r) -> frame s s'.
Proof.
  induction t as [|e|o k IH|l t' _ k IH|k _|e c k IH|body IHb catch IHc];
    intros s s' r H; simpl in H.
  - injection H as <- _. apply frame_refl.
  - injection H as <- _. apply frame_refl.
  - eapply frame_trans; [|eapply IH, H]. by apply frame_record_neutral.
  - eapply frame_trans; [|eapply IH, H]. apply frame_push.
  - injection H as <- _. apply frame_refl.
  - destruct (hraises _ e c) as [e'|].
    + injection H as <- _. by apply frame_record_neutral.
    + eapply frame_trans; [|eapply IH, H]. by apply frame_record_neutral.
  - destruct (exec body s) as [s1 [|e|k]] eqn:Hb.
    + injection H as <- _. eapply IHb, Hb.
    + eapply frame_trans; [eapply IHb, Hb|eapply IHc, H].
    + injection H as <- _. eapply IHb, Hb.
Qed.

Lemma exec_isRunning t s : isRunning (exec t s).1 = isRunning s.
Proof.
  destruct (exec t s) as [s' r] eqn:H. apply exec_frame in H. apply H.
Qed.

Lemma lane_of_set_lane_eq l q s : lane_of l (set_lane l q s) = q.
Proof. by destruct l. Qed.

Lemma lane_of_set_lane_ne l l' q s :
  l <> l' -> lane_of l' (set_lane l q s) = lane_of l' s.
Proof. by destruct l, l'. Qed.

Lemma pops_pop l l' t :
  pops l' [Pop l t] = if decide (l = l') then [t] else [].
Proof. unfold pops. simpl. by destruct (decide (l = l')). Qed.

#[local] Arguments pops : simpl never.
#[local] Arguments pushes : simpl never.
#[local] Arguments scan : simpl never.

Lemma pops_single l x :
  (forall l' t, x <> Pop l' t) -> pops l [x] = [].
Proof. intros Hx. destruct x; try done. by destruct (Hx l0 t). Qed.

Lemma fifo_same s s' :
  enqueued s' = enqueued s -> history s' = history s ->
  (forall l, lane_of l s' = lane_of l s) -> fifo s -> fifo s'.
Proof. intros He Hh Hl Hf l. by rewrite He, Hh, Hl. Qed.

Lemma fifo_set_runner r s : fifo s -> fifo (set_runner r s).
Proof. by apply fifo_same. Qed.

Lemma fifo_set_isRunning b s : fifo s -> fifo (set_isRunning b s).
Proof. by apply fifo_same. Qed.

Lemma fifo_set_handler h s : fifo s -> fifo (set_handler h s).
Proof. by apply fifo_same. Qed.

Lemma fifo_record x s :
  (forall l, pops l [x] = []) -> fifo s -> fifo (record x s).
Proof.
  intros Hx Hf l. cbn. rewrite pops_app, Hx, app_nil_r.
  rewrite Hf. by destruct l.
Qed.

Lemma inv_intro s :
  isRunning s = busy (runner s) -> fifo s ->
  scan (history s) = Some (busy (runner s)) ->
  (isRunning s = false -> deferredQueue s = []) -> inv s.
Proof. intros. by repeat split. Qed.

Lemma suspend_inv ph s' r :
  isRunning s' = true -> fifo s' -> scan (history s') = Some true ->
  inv (suspend ph (s', r)).
Proof.
  intros Hrun Hfifo Hscan. destruct r as [|e|k]; cbn [suspend].
  - apply inv_intro; cbn; [done|by apply fifo_set_runner|done|congruence].
  - unfold crash. apply inv_intro; cbn.
    + done.
    + apply fifo_record; [done|]. by apply fifo_set_runner.
    + by rewrite scan_app, Hscan.
    + congruence.
  - apply inv_intro; cbn; [done|by apply fifo_set_runner|done|congruence].
Qed.

Lemma invoke_inv ph l t rest s :
  ready s -> lane_of l s = t :: rest -> inv (invoke ph l t rest s).
Proof.
  intros (Hrun & Hfifo & Hscan) Hl. unfold invoke.
  destruct (exec t _) as [s' r] eqn:He.
  apply exec_frame in He as [Ha _ _ (es & Hh & Hn) (ps & Hq & Hlanes)].
  cbn in Ha, Hh, Hq.
  apply suspend_inv.
  - congruence.
  - intros l'. rewrite Hq, pushes_app, Hfifo, Hh, !pops_app, Hlanes.
    rewrite (pops_neutral _ es Hn), app_nil_r, pops_pop.
    change (lane_of l' (record (Pop l t) (set_lane l rest s)))
      with (lane_of l' (set_lane l rest s)).
    destruct (decide (l = l')) as [<-|Hne].
    + rewrite lane_of_set_lane_eq, Hl. by rewrite <-!app_assoc.
    + rewrite lane_of_set_lane_ne by done. by rewrite app_nil_r, app_assoc.
  - rewrite Hh, <-app_assoc, scan_app, Hscan. cbn.
    by rewrite scan_neutral.
Qed.

Lemma finish_inv s :
  fifo s -> scan (history s) = Some false -> deferredQueue s = [] ->
  inv (finish s).
Proof.
  intros Hfifo Hscan Hd. unfold finish. split; [done|]. split; [|split].
  - apply fifo_record; [done|]. by apply fifo_set_runner, fifo_set_isRunning.
  - cbn. by rewrite scan_app, Hscan.
  - done.
Qed.

Lemma deferred_loop_inv s : ready s -> inv (deferred_loop s).
Proof.
  intros Hr. unfold deferred_loop.
  destruct (deferredQueue s) as [|d ds] eqn:Hd.
  - destruct Hr as (_ & ? & ?). by apply finish_inv.
  - by apply invoke_inv.
Qed.

Lemma main_loop_inv s : ready s -> inv (main_loop s).
Proof.
  intros Hr. unfold main_loop.
  destruct (priorityQueue s) as [|p ps] eqn:Hp; [|by apply invoke_inv].
  destruct (mainQueue s) as [|m ms] eqn:Hm; [|by apply invoke_inv].
  unfold after_main. rewrite Hp, Hm.
  destruct (deferredQueue s) as [|d ds] eqn:Hd; cbn.
  - destruct Hr as (_ & ? & ?). by apply finish_inv.
  - by apply deferred_loop_inv.
Qed.

Lemma fifo_push l t s : fifo s -> fifo (push l t s).
Proof.
  intros Hfifo l'. cbn. rewrite pushes_app, Hfifo.
  destruct l, l'; cbn; by rewrite ?app_nil_r, <-?app_assoc.
Qed.

Lemma runQueue_inv s :
  isRunning s = busy (runner s) -> fifo s ->
  scan (history s) = Some (busy (runner s)) ->
  (isRunning s = true -> inv s) ->
  inv (runQueue s).
Proof.
  intros Hrun Hfifo Hscan Hinv. unfold runQueue.
  destruct (isRunning s) eqn:Hr; [by apply Hinv|].
  apply main_loop_inv. split; [done|]. split.
  - apply fifo_record; [done|]. by apply fifo_set_isRunning.
  - cbn. by rewrite scan_app, Hscan, <-Hrun.
Qed.

Lemma enqueue_inv l t s : inv s -> inv (enqueue l t s).
Proof.
  intros (Hrun & Hfifo & Hscan & Hidle).
  assert (fifo (push l t s)) as Hf by by apply fifo_push.
  assert (isRunning (push l t s) = true -> inv (push l t s)) as Hi.
  { intros Hr. apply inv_intro; [exact Hrun|exact Hf|exact Hscan|].
    intros Hr'. cbn in Hr, Hr'. congruence. }
  destruct l; cbn [enqueue]; unfold addToQueue, prioritize, defer.
  - apply runQueue_inv; [exact Hrun|exact Hf|exact Hscan|exact Hi].
  - apply runQueue_inv; [exact Hrun|exact Hf|exact Hscan|exact Hi].
  - cbv zeta. change (isRunning (push Deferred t s)) with (isRunning s) in *.
    destruct (isRunning s) eqn:Hr; cbn [negb].
    + by apply Hi.
    + apply runQueue_inv; [cbn; congruence|exact Hf|exact Hscan|].
      cbn. congruence.
Qed.

Lemma tick_inv s : inv s -> inv (tick s).
Proof.
  intros (Hrun & Hfifo & Hscan & Hidle). unfold tick.
  destruct (runner s) as [|ph [k|]|] eqn:Hr.
  - apply inv_intro; rewrite ?Hr; done.
  - destruct (exec k s) as [s' r] eqn:He.
    apply exec_frame in He as [Ha _ _ (es & Hh & Hn) (ps & Hq & Hlanes)].
    apply suspend_inv.
    + by rewrite Ha, Hrun.
    + intros l. rewrite Hq, pushes_app, Hfifo, Hh, pops_app, Hlanes.
      by rewrite (pops_neutral _ es Hn), app_nil_r, app_assoc.
    + rewrite Hh, scan_app, Hscan. cbn. by rewrite scan_neutral.
  - assert (ready (record Resume s)) as Hready.
    { split; [done|]. split.
      - by apply fifo_record.
      - cbn. by rewrite scan_app, Hscan. }
    destruct ph; [by apply main_loop_inv|by apply deferred_loop_inv].
  - apply inv_intro; rewrite ?Hr; done.
Qed.

Lemma step_inv e s : inv s -> inv (step e s).
Proof.
  destruct e as [l t| |h]; cbn [step].
  - apply enqueue_inv.
  - apply tick_inv.
  - intros (? & ? & ? & ?). by apply inv_intro.
Qed.

Lemma createQueue_inv h : inv (createQueue h).
Proof. apply inv_intro; try done. by intros []. Qed.

Lemma run_inv evs s : inv s -> inv (run evs s).
Proof.
  revert s. induction evs as [|e evs IH]; intros s Hs; [done|].
  cbn. apply IH. by apply step_inv.
Qed.

(** *** What one job does *)

Lemma passive_of_neutral es :
  Forall (fun x => neutral x = true) es -> Forall (fun x => passive x = true) es.
Proof. intros H. eapply Forall_impl; [exact H|]. by intros []. Qed.

Lemma suspend_shape ph s s' r es :
  history s' = history s ++ es ->
  Forall (fun x => neutral x = true) es ->
  exists es', history (suspend ph (s', r)) = history s ++ es'
    /\ Forall (fun x => passive x = true) es'
    /\ (runner (suspend ph (s', r)) = Dead
        \/ exists r', runner (suspend ph (s', r)) = Awaiting ph r').
Proof.
  intros Hh Hn. destruct r as [|e|k]; cbn.
  - exists es. split; [done|]. split; [by apply passive_of_neutral|]. eauto.
  - exists (es ++ [Crash e]). split; [by rewrite Hh, app_assoc|].
    split; [|by left]. apply Forall_app. split; [by apply passive_of_neutral|].
    by constructor.
  - exists es. split; [done|]. split; [by apply passive_of_neutral|]. eauto.
Qed.

Lemma invoke_shape ph l t rest s : after_pop s (invoke ph l t rest s) ph l t.
Proof.
  unfold invoke. destruct (exec t _) as [s' r] eqn:He.
  apply exec_frame in He as [_ _ _ (es & Hh & Hn) _].
  destruct (suspend_shape ph _ s' r es Hh Hn) as (es' & H1 & H2 & H3).
  cbn in H1. rewrite <-app_assoc in H1. by econstructor.
Qed.

Lemma deferred_loop_shape ph0 s :
  (ph0 = MainPhase -> priorityQueue s = [] /\ mainQueue s = []) ->
  looped ph0 s (deferred_loop s).
Proof.
  intros H0. unfold deferred_loop.
  destruct (deferredQueue s) as [|d ds] eqn:Hd.
  - by apply LoopStop.
  - eapply LoopPop; [apply invoke_shape|done|done|done|].
    cbn. by rewrite Hd.
Qed.

Lemma main_loop_shape s : looped MainPhase s (main_loop s).
Proof.
  unfold main_loop.
  destruct (priorityQueue s) as [|p ps] eqn:Hp.
  - destruct (mainQueue s) as [|m ms] eqn:Hm.
    + unfold after_main. rewrite Hp, Hm.
      destruct (deferredQueue s) as [|d ds] eqn:Hd; cbn.
      * by apply LoopStop.
      * by apply deferred_loop_shape.
    + eapply LoopPop; [apply invoke_shape|done|done|done|].
      cbn. by rewrite Hm.
  - eapply LoopPop; [apply invoke_shape|done|done|done|].
    cbn. by rewrite Hp.
Qed.

Lemma prefix_push l l' t s : lane_of l' s `prefix_of` lane_of l' (push l t s).
Proof.
  destruct l, l'; cbn; try done; by apply prefix_app_r.
Qed.

Lemma runQueue_shape s0 s :
  inv s -> history s0 = history s -> runner s0 = runner s ->
  isRunning s0 = isRunning s ->
  (forall l, lane_of l s `prefix_of` lane_of l s0) ->
  stepped s (runQueue s0).
Proof.
  intros (Hrun & _) Hh Hr Hi Hl. unfold runQueue.
  destruct (isRunning s0) eqn:Hrun0; [by apply StNone|].
  eapply StStart with (s0 := record Start (set_isRunning true s0)).
  - assert (busy (runner s) = false) as Hb by congruence.
    by destruct (runner s).
  - cbn. by rewrite Hh.
  - intros l. specialize (Hl l). by destruct l.
  - apply main_loop_shape.
Qed.

Lemma step_shape e s : inv s -> stepped s (step e s).
Proof.
  intros Hinv. destruct e as [l t| |h]; cbn [step].
  - destruct l; cbn [enqueue]; unfold addToQueue, prioritize, defer.
    + apply runQueue_shape; try done. intros l. apply prefix_push.
    + apply runQueue_shape; try done. intros l. apply prefix_push.
    + cbv zeta. destruct (isRunning (push Deferred t s)) eqn:Hr; cbn [negb].
      * by apply StNone.
      * apply runQueue_shape; try done. intros l. apply prefix_push.
  - unfold tick. destruct (runner s) as [|ph [k|]|] eqn:Hr.
    + by apply StNone.
    + destruct (exec k s) as [s' r] eqn:He.
      apply exec_frame in He as [_ _ _ (es & Hh & Hn) _].
      destruct (suspend_shape ph _ s' r es Hh Hn) as (es' & H1 & H2 & H3).
      by eapply StItem.
    + eapply StResume with (s0 := record Resume s); try done.
      destruct ph; cbn [loop].
      * apply main_loop_shape.
      * by apply deferred_loop_shape.
    + by apply StNone.
  - by apply StNone.
Qed.

(** *** The record only grows *)

Lemma extends_refl s : extends s s.
Proof. split; exists []; by rewrite app_nil_r. Qed.

Lemma extends_trans s1 s2 s3 : extends s1 s2 -> extends s2 s3 -> extends s1 s3.
Proof.
  intros [(d1 & H1) (p1 & Q1)] [(d2 & H2) (p2 & Q2)]. split.
  - exists (d1 ++ d2). by rewrite H2, H1, app_assoc.
  - exists (p1 ++ p2). by rewrite Q2, Q1, app_assoc.
Qed.

Lemma extends_same s s1 :
  history s1 = history s -> enqueued s1 = enqueued s -> extends s s1.
Proof. intros H1 H2. split; exists []; by rewrite app_nil_r. Qed.

Lemma extends_record x s : extends s (record x s).
Proof. split; [by exists [x]|]. exists []. by rewrite app_nil_r. Qed.

Lemma extends_push l t s : extends s (push l t s).
Proof. split; [|by exists [(l, t)]]. exists []. by rewrite app_nil_r. Qed.

Lemma extends_exec t s : extends s (exec t s).1.
Proof.
  destruct (exec t s) as [s' r] eqn:He.
  apply exec_frame in He as [_ _ _ (es & Hh & _) (ps & Hq & _)].
  split; eauto.
Qed.

Lemma extends_suspend ph sr : extends sr.1 (suspend ph sr).
Proof.
  destruct sr as [s [|e|k]]; cbn [suspend fst].
  - by apply extends_same.
  - unfold crash. eapply extends_trans; [|apply extends_record].
    by apply extends_same.
  - by apply extends_same.
Qed.

Lemma extends_invoke ph l t rest s : extends s (invoke ph l t rest s).
Proof.
  unfold invoke.
  eapply extends_trans; [|apply extends_suspend].
  eapply extends_trans; [|apply extends_exec].
  eapply extends_trans; [|apply extends_record].
  by apply extends_same.
Qed.

Lemma extends_finish s : extends s (finish s).
Proof.
  unfold finish. eapply extends_trans; [|apply extends_record].
  by apply extends_same.
Qed.

Lemma extends_deferred_loop s : extends s (deferred_loop s).
Proof.
  unfold deferred_loop. destruct (deferredQueue s).
  - apply extends_finish.
  - apply extends_invoke.
Qed.

Lemma extends_main_loop s : extends s (main_loop s).
Proof.
  unfold main_loop, after_main.
  destruct (priorityQueue s); [|apply extends_invoke].
  destruct (mainQueue s); [|apply extends_invoke].
  destruct (_ && _); [apply extends_deferred_loop|apply extends_finish].
Qed.

Lemma extends_runQueue s : extends s (runQueue s).
Proof.
  unfold runQueue. destruct (isRunning s); [apply extends_refl|].
  eapply extends_trans; [|apply extends_main_loop].
  eapply extends_trans; [|apply extends_record].
  by apply extends_same.
Qed.

Lemma extends_step e s : extends s (step e s).
Proof.
  destruct e as [l t| |h]; cbn [step].
  - destruct l; cbn [enqueue]; unfold addToQueue, prioritize, defer; cbv zeta;
      try destruct (negb _);
      try (eapply extends_trans; [apply extends_push|apply extends_runQueue]).
    apply extends_push.
  - unfold tick. destruct (runner s) as [|ph [k|]|].
    + apply extends_refl.
    + eapply extends_trans; [apply (extends_exec k)|apply extends_suspend].
    + eapply extends_trans; [apply extends_record|].
      destruct ph; [apply extends_main_loop|apply extends_deferred_loop].
    + apply extends_refl.
  - by apply extends_same.
Qed.

Lemma extends_run evs s : extends s (run evs s).
Proof.
  revert s. induction evs as [|e evs IH]; intros s; [apply extends_refl|].
  cbn. eapply extends_trans; [apply extends_step|apply IH].
Qed.

Lemma gained_app s s1 d : history s1 = history s ++ d -> gained s s1 = d.
Proof. intros H. unfold gained. by rewrite H, drop_app_length. Qed.

Lemma history_gained s s1 :
  extends s s1 -> history s1 = history s ++ gained s s1.
Proof. intros [(d & Hd) _]. by rewrite (gained_app _ _ _ Hd). Qed.

Lemma gained_trans s s1 s2 :
  extends s s1 -> extends s1 s2 ->
  gained s s2 = gained s s1 ++ gained s1 s2.
Proof.
  intros H1 H2. apply gained_app.
  by rewrite (history_gained _ _ H2), (history_gained _ _ H1), app_assoc.
Qed.

(** Between two states of a run, a lane loses what was taken from its
    head and nothing else. *)
Lemma lanes_between s s1 l :
  inv s -> inv s1 -> extends s s1 ->
  lane_of l s `prefix_of` pops l (gained s s1) ++ lane_of l s1.
Proof.
  intros (_ & Hf & _) (_ & Hf1 & _) Hext.
  pose proof (history_gained _ _ Hext) as Hh.
  destruct Hext as [_ (ps & Hq)].
  specialize (Hf l). specialize (Hf1 l).
  rewrite Hq, pushes_app, Hf, Hh, pops_app, <-!app_assoc in Hf1.
  apply app_inv_head in Hf1. rewrite <-Hf1. by apply prefix_app_r.
Qed.

Lemma split_app {A} (d new pre post : list A) x :
  d ++ new = pre ++ x :: post ->
  (exists pre', pre = d ++ pre' /\ new = pre' ++ x :: post)
  \/ (exists d2, d = pre ++ x :: d2).
Proof.
  revert pre. induction d as [|y d IH]; intros pre H.
  - left. by exists pre.
  - destruct pre as [|z pre]; cbn in H.
    + right. injection H as <- <-. by exists d.
    + injection H as <- H. destruct (IH _ H) as [(pre' & -> & ->)|(d2 & ->)].
      * left. by exists pre'.
      * right. by exists d2.
Qed.

Lemma pops_passive l es : Forall (fun x => passive x = true) es -> pops l es = [].
Proof.
  induction 1 as [|x es Hx _ IH]; [done|].
  destruct x; cbn in *; try discriminate; exact IH.
Qed.

(** An item is taken from a lane only by a job that starts the runner
    or resumes it at the head of a loop; the first loop takes from the
    main lane only when the priority lane is empty, and the second loop
    is entered from the first only when both other lanes are empty. *)
Lemma step_pop e s pre l t post :
  inv s -> gained s (step e s) = pre ++ Pop l t :: post ->
  (l = Main -> priorityQueue s = [])
  /\ (l <> Deferred -> ~ draining s)
  /\ (l = Deferred ->
       runner s = Awaiting DeferredPhase None
       \/ (priorityQueue s = [] /\ mainQueue s = []))
  /\ pops l pre = [].
Proof.
  intros Hinv Hg.
  assert (forall es pre post, Forall (fun x => passive x = true) es ->
            es = pre ++ Pop l t :: post -> False) as Hno.
  { intros es pre' post' Hes ->. apply Forall_app in Hes as [_ Hes].
    by apply Forall_cons in Hes as [? _]. }
  assert (forall x l' t' es pre post, passive x = false -> x <> Pop l t ->
            Forall (fun x => passive x = true) es ->
            x :: Pop l' t' :: es = pre ++ Pop l t :: post ->
            l' = l /\ pre = [x]) as Hone.
  { intros x l' t' es pre' post' Hx Hxp Hes Heq.
    destruct pre' as [|y pre']; [by injection Heq|].
    injection Heq as <- Heq.
    destruct pre' as [|z pre']; [by injection Heq as -> _|].
    injection Heq as _ Heq. by destruct (Hno _ _ _ Hes Heq). }
  destruct (step_shape e s Hinv) as
    [Hh Hr|ph k es Hr Hh Hes _|s0 Hr Hh Hl Hloop|ph s0 Hr Hh Hl Hloop].
  - rewrite (gained_app _ _ [] ) in Hg by by rewrite app_nil_r.
    by destruct pre.
  - rewrite (gained_app _ _ _ Hh) in Hg. by destruct (Hno _ _ _ Hes Hg).
  - destruct Hloop as [ph l' t' [es Hh1 Hes _] HM HnD HD Hne|Hh1 _ _].
    + rewrite Hh, <-app_assoc in Hh1. rewrite (gained_app _ _ _ Hh1) in Hg.
      cbn in Hg. destruct (Hone Start _ _ _ _ _ eq_refl ltac:(done) Hes Hg) as [-> ->].
      split; [|split; [|split]].
      * intros ->. specialize (Hl Priority). cbn in Hl. rewrite HM in Hl by done.
        by apply prefix_nil_inv.
      * intros _ [r Hd]. congruence.
      * intros ->. right. destruct (HD eq_refl) as [_ HD'].
        destruct (HD' eq_refl) as [Hp Hm].
        pose proof (Hl Priority) as H1. pose proof (Hl Main) as H2.
        cbn in H1, H2. rewrite Hp in H1. rewrite Hm in H2.
        split; by apply prefix_nil_inv.
      * done.
    + rewrite Hh, <-app_assoc in Hh1. rewrite (gained_app _ _ _ Hh1) in Hg.
      destruct pre as [|? [|? [|? ?]]]; discriminate.
  - destruct Hloop as [ph' l' t' [es Hh1 Hes _] HM HnD HD Hne|Hh1 _ _].
    + rewrite Hh, <-app_assoc in Hh1. rewrite (gained_app _ _ _ Hh1) in Hg.
      cbn in Hg. destruct (Hone Resume _ _ _ _ _ eq_refl ltac:(done) Hes Hg) as [-> ->].
      split; [|split; [|split]].
      * intros ->. pose proof (Hl Priority) as H1. cbn in H1.
        rewrite <-H1. by apply HM.
      * intros Hnd [r Hd]. destruct (HnD Hnd) as [_ ->]. congruence.
      * intros ->. destruct (HD eq_refl) as [_ HD']. destruct ph.
        -- right. destruct (HD' eq_refl) as [Hp Hm].
           pose proof (Hl Priority) as H1. pose proof (Hl Main) as H2.
           cbn in H1, H2. by rewrite <-H1, <-H2.
        -- by left.
      * done.
    + rewrite Hh, <-app_assoc in Hh1. rewrite (gained_app _ _ _ Hh1) in Hg.
      destruct pre as [|? [|? [|? ?]]]; discriminate.
Qed.

Lemma step_draining e s :
  inv s -> draining s ->
  (draining (step e s) \/ runner (step e s) = Dead)
  \/ (runner (step e s) = Idle /\ gained s (step e s) = [Resume; Stop]).
Proof.
  intros Hinv [r Hd].
  destruct (step_shape e s Hinv) as
    [Hh Hr|ph k es Hr Hh Hes Hr1|s0 Hr Hh Hl Hloop|ph s0 Hr Hh Hl Hloop].
  - left. left. exists r. congruence.
  - left. destruct Hr1 as [?|[r' Hr']]; [by right|left].
    exists r'. congruence.
  - congruence.
  - assert (ph = DeferredPhase) as -> by congruence.
    destruct Hloop as [ph' l' t' [es Hh1 Hes Hr1] HM HnD HD Hne|Hh1 Hr1 _].
    + left. destruct Hr1 as [?|[r' Hr']]; [by right|left].
      destruct (decide (l' = Deferred)) as [->|Hn].
      * destruct (HD eq_refl) as [-> _]. by exists r'.
      * by destruct (HnD Hn) as [_ ?].
    + right. split; [done|]. apply gained_app. by rewrite Hh1, Hh, <-app_assoc.
Qed.

Lemma step_dead e s :
  inv s -> runner s = Dead ->
  runner (step e s) = Dead /\ gained s (step e s) = [].
Proof.
  intros Hinv Hd.
  destruct (step_shape e s Hinv) as
    [Hh Hr|ph k es Hr Hh Hes Hr1|s0 Hr Hh Hl Hloop|ph s0 Hr Hh Hl Hloop];
    try congruence.
  split; [congruence|]. apply gained_app. by rewrite app_nil_r.
Qed.

Lemma step_idle e s :
  inv s -> runner s = Idle ->
  (runner (step e s) = Idle /\ gained s (step e s) = [])
  \/ (exists d, gained s (step e s) = Start :: d).
Proof.
  intros Hinv Hd.
  destruct (step_shape e s Hinv) as
    [Hh Hr|ph k es Hr Hh Hes Hr1|s0 Hr Hh Hl Hloop|ph s0 Hr Hh Hl Hloop];
    try congruence.
  - left. split; [congruence|]. apply gained_app. by rewrite app_nil_r.
  - right. pose proof (extends_step e s) as Hext.
    pose proof (history_gained _ _ Hext) as Hg.
    destruct Hloop as [ph' l' t' [es Hh1 _ _] _ _ _ _|Hh1 _ _];
      rewrite Hh, <-app_assoc in Hh1; rewrite (gained_app _ _ _ Hh1); eauto.
Qed.

(** *** Runs *)

Lemma run_cons e evs s : run (e :: evs) s = run evs (step e s).
Proof. done. Qed.

Lemma run_app evs1 evs2 s : run (evs1 ++ evs2) s = run evs2 (run evs1 s).
Proof. apply foldl_app. Qed.

Lemma gained_run_cons e evs s :
  gained s (run (e :: evs) s)
  = gained s (step e s) ++ gained (step e s) (run evs (step e s)).
Proof.
  rewrite run_cons. apply gained_trans; [apply extends_step|apply extends_run].
Qed.

Lemma gained_refl s : gained s s = [].
Proof. apply gained_app. by rewrite app_nil_r. Qed.

(** No main-lane item is taken before everything that stands in the
    priority lane has been taken, in the order in which it stands
    there. *)
Lemma priority_first evs : forall s pre m post,
  inv s -> gained s (run evs s) = pre ++ Pop Main m :: post ->
  priorityQueue s `prefix_of` pops Priority pre.
Proof.
  induction evs as [|e evs IH]; intros s pre m post Hinv Hg.
  - cbn in Hg. rewrite gained_refl in Hg. by destruct pre.
  - rewrite gained_run_cons in Hg.
    pose proof (step_inv e s Hinv) as Hinv1.
    destruct (split_app _ _ _ _ _ Hg) as [(pre' & -> & Hg')|(d2 & Hd)].
    + specialize (IH _ _ _ _ Hinv1 Hg').
      rewrite pops_app.
      etrans; [apply (lanes_between s (step e s) Priority Hinv Hinv1),
                 extends_step|].
      by apply prefix_app.
    + destruct (step_pop _ _ _ _ _ _ Hinv Hd) as (Hp & _).
      rewrite Hp by done. apply prefix_nil.
Qed.

Lemma idle_needs_start evs : forall s pre l t post,
  inv s -> runner s = Idle ->
  gained s (run evs s) = pre ++ Pop l t :: post -> Start ∈ pre.
Proof.
  induction evs as [|e evs IH]; intros s pre l t post Hinv Hidle Hg.
  - cbn in Hg. rewrite gained_refl in Hg. by destruct pre.
  - rewrite gained_run_cons in Hg.
    pose proof (step_inv e s Hinv) as Hinv1.
    destruct (step_idle e s Hinv Hidle) as [[Hr Hd]|[d Hd]].
    + rewrite Hd in Hg. cbn in Hg. by eapply IH.
    + rewrite Hd in Hg. cbn in Hg.
      destruct pre as [|x pre]; [discriminate|].
      injection Hg as <- _. by left.
Qed.

(** While the second loop runs, and after a crash, nothing is taken
    from the other two lanes: an item of those lanes is only taken after
    the runner has stopped and a later call has started it again. *)
Lemma drain_keeps_out evs : forall s pre l t post,
  inv s -> draining s \/ runner s = Dead ->
  gained s (run evs s) = pre ++ Pop l t :: post -> l <> Deferred ->
  exists p1 p2, pre = p1 ++ Stop :: p2 /\ Start ∈ p2.
Proof.
  induction evs as [|e evs IH]; intros s pre l t post Hinv Hmode Hg Hl.
  - cbn in Hg. rewrite gained_refl in Hg. by destruct pre.
  - rewrite gained_run_cons in Hg.
    pose proof (step_inv e s Hinv) as Hinv1.
    destruct (split_app _ _ _ _ _ Hg) as [(pre' & -> & Hg')|(d2 & Hd)].
    + destruct Hmode as [Hdr|Hdead].
      * destruct (step_draining e s Hinv Hdr) as [Hm|[Hidle Hd]].
        -- destruct (IH _ _ _ _ _ Hinv1 Hm Hg' Hl) as (p1 & p2 & -> & Hs).
           exists (gained s (step e s) ++ p1), p2. by rewrite <-app_assoc.
        -- rewrite Hd. exists [Resume], pre'. split; [done|].
           by eapply idle_needs_start.
      * destruct (step_dead e s Hinv Hdead) as [Hd1 Hd].
        destruct (IH _ _ _ _ _ Hinv1 (or_intror Hd1) Hg' Hl)
          as (p1 & p2 & -> & Hs).
        exists (gained s (step e s) ++ p1), p2. by rewrite <-app_assoc.
    + destruct Hmode as [Hdr|Hdead].
      * destruct (step_pop _ _ _ _ _ _ Hinv Hd) as (_ & Hnd & _).
        by destruct (Hnd Hl).
      * destruct (step_dead e s Hinv Hdead) as [_ Hd'].
        rewrite Hd' in Hd. by destruct pre.
Qed.

(** *** Items run to their end *)

Lemma state_eq s s' :
  priorityQueue s = priorityQueue s' -> mainQueue s = mainQueue s' ->
  deferredQueue s = deferredQueue s' -> isRunning s = isRunning s' ->
  runner s = runner s' -> defaultErrorHandler s = defaultErrorHandler s' ->
  history s = history s' -> enqueued s = enqueued s' -> s = s'.
Proof. destruct s, s'; cbn; by intros -> -> -> -> -> -> -> ->. Qed.

Ltac list_norm := repeat (progress (rewrite <-?app_assoc; cbn [app])).

Ltac state_ext := apply state_eq; cbn; try list_norm; try done.

Lemma records_nil s : records [] s = s.
Proof. destruct s. unfold records. cbn. by rewrite app_nil_r. Qed.

Lemma records_app es1 es2 s : records es2 (records es1 s) = records (es1 ++ es2) s.
Proof. unfold records. cbn. by rewrite app_assoc. Qed.

Lemma record_records x s : record x s = records [x] s.
Proof. done. Qed.

(** [exec] on a quiet item: the state changes by the record alone, and
    what is left of the item is what is left of its path. *)
Lemma exec_play h t : forall s,
  quiet t -> defaultErrorHandler s = h ->
  exists es0, (exec t s).1 = records es0 s /\
    match (exec t s).2 with
    | Done => play h t = (es0, 0, None)
    | Failed e => play h t = (es0, 0, Some e)
    | Suspended k =>
        quiet k /\ play h t = (es0 ++ outputs h k, S (awaits h k), outcome h k)
    end.
Proof.
  induction t as [|e|o k IH|l t' _ k IH|k _|e c k IH|body IHb catch IHc];
    intros s Hq Hh; cbn [exec play].
  - exists []. by rewrite records_nil.
  - exists []. by rewrite records_nil.
  - destruct (IH (record (Out o) s) Hq Hh) as (es0 & H1 & H2).
    exists (Out o :: es0). rewrite H1, record_records, records_app.
    split; [done|].
    destruct (exec k _).2; [by rewrite H2|by rewrite H2|].
    destruct H2 as [? H2]. by rewrite H2.
  - done.
  - exists []. rewrite records_nil. split; [done|]. split; [done|].
    unfold outputs, awaits, outcome. by destruct (play h k) as [[? ?] ?].
  - rewrite Hh. destruct (hraises h e c) as [e'|] eqn:Hr.
    + by exists [HandlerCall (hname h) e c].
    + destruct (IH (record (HandlerCall (hname h) e c) s) Hq Hh)
        as (es0 & H1 & H2).
      exists (HandlerCall (hname h) e c :: es0).
      rewrite H1, record_records, records_app. split; [done|].
      destruct (exec k _).2; [by rewrite H2|by rewrite H2|].
      destruct H2 as [? H2]. by rewrite H2.
  - destruct Hq as [Hqb Hqc].
    destruct (IHb s Hqb Hh) as (es0 & H1 & H2).
    destruct (exec body s) as [s1 [|e|k]] eqn:Hb; cbn [fst snd] in *.
    + exists es0. by rewrite H2.
    + subst s1. destruct (IHc e (records es0 s) (Hqc e) Hh) as (es1 & H3 & H4).
      exists (es0 ++ es1). rewrite H3, records_app. split; [done|]. rewrite H2.
      destruct (exec (catch e) _).2; [by rewrite H4|by rewrite H4|].
      destruct H4 as [? H4]. rewrite H4. split; [done|].
      by rewrite app_assoc.
    + exists es0. split; [done|]. destruct H2 as [Hk H2]. split; [by split|].
      rewrite H2. unfold outputs, awaits, outcome. cbn [play].
      destruct (play h k) as [[es n] [e|]]; cbn [fst snd]; [|done].
      destruct (play h (catch e)) as [[es' n'] r']; cbn [fst snd].
      by rewrite app_assoc.
Qed.

Lemma ticks_S n : ticks (S n) = Tick :: ticks n.
Proof. done. Qed.

Lemma ticks_add n m : ticks (n + m) = ticks n ++ ticks m.
Proof. apply replicate_add. Qed.

(** An item suspended at an [await] reaches its end after as many jobs
    as it has awaits left, and one more. *)
Lemma item_finishes h ph : forall n k s,
  quiet k -> defaultErrorHandler s = h ->
  runner s = Awaiting ph (Some k) ->
  awaits h k = n -> outcome h k = None ->
  run (ticks (S n)) s = set_runner (Awaiting ph None) (records (outputs h k) s).
Proof.
  induction n as [|n IH]; intros k s Hq Hh Hr Hn Ho;
    rewrite ticks_S, run_cons; cbn [step]; unfold tick; rewrite Hr;
    destruct (exec_play h k s Hq Hh) as (es0 & H1 & H2);
    destruct (exec k s) as [s1 [|e|k']]; cbn [fst snd] in *; subst s1;
    unfold outputs, awaits, outcome in *; rewrite ?H2 in *; cbn [fst snd] in *;
    try discriminate.
  - done.
  - destruct H2 as [_ H2]. rewrite H2 in Hn. discriminate.
  - destruct H2 as [Hq' H2]. rewrite H2 in *. cbn [fst snd] in *.
    injection Hn as Hn. cbn [suspend].
    rewrite (IH k'); try done.
    state_ext.
Qed.

(** The same, counted from the call of the item. *)
Lemma invoke_finishes h ph l t rest s :
  quiet t -> defaultErrorHandler s = h -> outcome h t = None ->
  run (ticks (awaits h t)) (invoke ph l t rest s)
  = set_runner (Awaiting ph None)
      (records (Pop l t :: outputs h t) (set_lane l rest s)).
Proof.
  intros Hq Hh Ho. unfold invoke.
  destruct (exec_play h t (record (Pop l t) (set_lane l rest s)) Hq)
    as (es0 & H1 & H2); [by destruct l|].
  destruct (exec t _) as [s1 [|e|k]]; cbn [fst snd] in *; subst s1;
    unfold outputs, awaits, outcome in *.
  - rewrite H2. cbn [fst snd ticks replicate run foldl suspend].
    state_ext.
  - rewrite H2 in Ho. discriminate.
  - destruct H2 as [Hq' H2]. rewrite H2 in *. cbn [fst snd suspend] in *.
    rewrite (item_finishes h ph (play h k).1.2 k); try done.
    state_ext.
Qed.

(** The first loop empties the main lane, one item after the other, and
    the runner stops. *)
Lemma drain_main h : forall ts s,
  Forall quiet ts -> Forall (fun t => outcome h t = None) ts ->
  defaultErrorHandler s = h -> runner s = Awaiting MainPhase None ->
  priorityQueue s = [] -> deferredQueue s = [] -> mainQueue s = ts ->
  run (ticks (sum_list (map (fun t => S (awaits h t)) ts) + 1)) s
  = finish (set_lane Main []
      (records (flat_map (fun t => Resume :: Pop Main t :: outputs h t) ts
                ++ [Resume]) s)).
Proof.
  induction ts as [|t ts IH]; intros s Hq Ho Hh Hr Hp Hd Hm.
  - cbn [map sum_list flat_map app Nat.add]. rewrite ticks_S, run_cons.
    cbn [step ticks replicate run foldl]. unfold tick. rewrite Hr. cbn [loop].
    unfold main_loop. cbn [priorityQueue mainQueue record].
    rewrite Hp, Hm. unfold after_main. cbn [priorityQueue mainQueue record].
    rewrite Hp, Hm. unfold deferred_loop.
    cbn [deferredQueue record is_empty negb andb]. rewrite Hd.
    cbn [is_empty negb andb].
    state_ext.
  - apply Forall_cons in Hq as [Hq Hqs]. apply Forall_cons in Ho as [Ho Hos].
    change (sum_list (map (fun t => S (awaits h t)) (t :: ts)))
      with (S (awaits h t) + sum_list (map (fun t => S (awaits h t)) ts)).
    replace (S (awaits h t) + sum_list (map (fun t => S (awaits h t)) ts) + 1)
      with (1 + (awaits h t
                 + (sum_list (map (fun t => S (awaits h t)) ts) + 1))) by lia.
    rewrite 2!ticks_add, 2!run_app.
    cbn [ticks replicate run foldl step].
    unfold tick at 1. rewrite Hr.
    cbn [loop]. unfold main_loop at 1. cbn [priorityQueue mainQueue record].
    rewrite Hp, Hm.
    rewrite (invoke_finishes h); [|done|done|done].
    rewrite IH; try done.
    state_ext.
Qed.

Lemma enqueue_running l t s :
  isRunning s = true -> enqueue l t s = push l t s.
Proof.
  intros Hr. destruct l; cbn; unfold addToQueue, prioritize, defer, runQueue;
    cbn; by rewrite Hr.
Qed.

Lemma run_enqueue_running ts : forall s,
  isRunning s = true ->
  run (map (Enqueue Main) ts) s
  = foldl (fun s t => push Main t s) s ts.
Proof.
  induction ts as [|t ts IH]; intros s Hr; [done|].
  cbn [map]. rewrite run_cons. cbn [step foldl].
  rewrite enqueue_running by done. by apply IH.
Qed.

Lemma pushes_main ts : forall s,
  let s' := foldl (fun s t => push Main t s) s ts in
  history s' = history s /\ runner s' = runner s
  /\ isRunning s' = isRunning s
  /\ defaultErrorHandler s' = defaultErrorHandler s
  /\ priorityQueue s' = priorityQueue s /\ deferredQueue s' = deferredQueue s
  /\ mainQueue s' = mainQueue s ++ ts.
Proof.
  induction ts as [|t ts IH]; intros s; cbn [foldl].
  - repeat split; try reflexivity. symmetry. apply app_nil_r.
  - destruct (IH (push Main t s)) as (H1 & H2 & H3 & H4 & H5 & H6 & H7).
    repeat split; [exact H1|exact H2|exact H3|exact H4|exact H5|exact H6|].
    rewrite H7. change (mainQueue (push Main t s)) with (mainQueue s ++ [t]).
    by rewrite <-app_assoc.
Qed.

(** The call of a quiet item that does not fail, cut at the point where
    the stack comes back: what is written before ([es0]) and what the
    later jobs write ([es1]), whatever was pushed in between. *)
Lemma invoke_split h ph l t rest s :
  quiet t -> defaultErrorHandler s = h -> outcome h t = None ->
  exists es0 es1,
    es0 ++ es1 = outputs h t
    /\ invoke ph l t rest s
       = set_runner (runner (invoke ph l t rest s))
           (records (Pop l t :: es0) (set_lane l rest s))
    /\ forall s2, runner s2 = runner (invoke ph l t rest s) ->
         defaultErrorHandler s2 = h ->
         run (ticks (awaits h t)) s2
         = set_runner (Awaiting ph None) (records es1 s2).
Proof.
  intros Hq Hh Ho. unfold invoke.
  destruct (exec_play h t (record (Pop l t) (set_lane l rest s)) Hq)
    as (es0 & H1 & H2); [by destruct l|].
  destruct (exec t _) as [s1 [|e|k]]; cbn [fst snd] in *; subst s1;
    unfold outputs, awaits, outcome in *.
  - exists es0, []. rewrite H2. cbn [fst snd suspend]. rewrite app_nil_r.
    split; [done|]. split; [state_ext|].
    intros s2 Hr2 Hh2. cbn [ticks replicate run foldl].
    rewrite records_nil. state_ext.
  - rewrite H2 in Ho. discriminate.
  - destruct H2 as [Hq' H2]. rewrite H2 in *. cbn [fst snd suspend] in *.
    exists es0, (play h k).1.1. split; [done|]. split; [state_ext|].
    intros s2 Hr2 Hh2.
    by apply (item_finishes h ph (play h k).1.2 k).
Qed.

(** A burst of quiet items none of which fails: the items run in the
    order of the calls, each to its end before the next is taken, and the
    queue is idle and empty at the end. *)
Lemma burst_in_turn h t ts :
  Forall quiet (t :: ts) -> Forall (fun t => outcome h t = None) (t :: ts) ->
  let s := run (burst h (t :: ts)) (createQueue h) in
  history s = in_turn h t ts /\ isRunning s = false /\ runner s = Idle
  /\ priorityQueue s = [] /\ mainQueue s = [] /\ deferredQueue s = [].
Proof.
  intros Hq Ho. apply Forall_cons in Hq as [Hq Hqs].
  apply Forall_cons in Ho as [Ho Hos]. unfold burst.
  change (sum_list (map (fun t => S (awaits h t)) (t :: ts)))
    with (S (awaits h t) + sum_list (map (fun t => S (awaits h t)) ts)).
  replace (S (awaits h t) + sum_list (map (fun t => S (awaits h t)) ts))
    with (awaits h t + (sum_list (map (fun t => S (awaits h t)) ts) + 1))
    by lia.
  cbn [map]. rewrite <-app_comm_cons, run_cons, run_app, ticks_add, run_app.
  set (s0 := record Start (set_isRunning true (push Main t (createQueue h)))).
  change (step (Enqueue Main t) (createQueue h))
    with (invoke MainPhase Main t [] s0).
  destruct (invoke_split h MainPhase Main t [] s0 Hq eq_refl Ho)
    as (es0 & es1 & Hes & Hs1 & Hfin).
  set (s1 := invoke MainPhase Main t [] s0) in *.
  assert (isRunning s1 = true) as Hrun by by rewrite Hs1.
  rewrite run_enqueue_running by done.
  destruct (pushes_main ts s1) as (Hh & Hr & Hi & Hd & Hp & Hdq & Hm).
  set (s2 := foldl (fun s t => push Main t s) s1 ts) in *.
  assert (history s1 = Start :: Pop Main t :: es0) as Hh1 by by rewrite Hs1.
  assert (mainQueue s1 = []) as Hm1 by by rewrite Hs1.
  assert (priorityQueue s1 = []) as Hp1 by by rewrite Hs1.
  assert (deferredQueue s1 = []) as Hd1 by by rewrite Hs1.
  assert (defaultErrorHandler s1 = h) as Hdh by by rewrite Hs1.
  rewrite (Hfin s2) by congruence.
  rewrite (drain_main h ts); try done;
    [|cbn; congruence|cbn; congruence|cbn; congruence
     |cbn; by rewrite Hm, Hm1].
  cbn. rewrite Hh, Hh1. unfold in_turn. rewrite <-Hes.
  repeat split; try done; try congruence. by list_norm.
Qed.

(** *** The refactored runner keeps the same invariant *)

Lemma refactor_main_loop_inv s : ready s -> inv (Refactor.main_loop s).
Proof.
  intros Hr. unfold Refactor.main_loop.
  destruct (mainQueue s) as [|m ms] eqn:Hm; [|by apply invoke_inv].
  unfold Refactor.after_main. rewrite Hm.
  destruct (deferredQueue s) as [|d ds] eqn:Hd; cbn.
  - destruct Hr as (_ & ? & ?). by apply finish_inv.
  - by apply deferred_loop_inv.
Qed.

Lemma refactor_runQueue_inv s :
  isRunning s = busy (runner s) -> fifo s ->
  scan (history s) = Some (busy (runner s)) ->
  (isRunning s = true -> inv s) ->
  inv (Refactor.runQueue s).
Proof.
  intros Hrun Hfifo Hscan Hinv. unfold Refactor.runQueue.
  destruct (isRunning s) eqn:Hr; [by apply Hinv|].
  apply refactor_main_loop_inv. split; [done|]. split.
  - apply fifo_record; [done|]. by apply fifo_set_isRunning.
  - cbn. by rewrite scan_app, Hscan, <-Hrun.
Qed.

Lemma refactor_step_inv e s : inv s -> inv (Refactor.step e s).
Proof.
  intros Hinv. destruct e as [t|t|]; cbn [Refactor.step].
  - destruct Hinv as (Hrun & Hfifo & Hscan & Hidle).
    unfold Refactor.addToQueue. apply refactor_runQueue_inv;
      [exact Hrun|by apply fifo_push|exact Hscan|].
    intros Hr. apply inv_intro; [exact Hrun|by apply fifo_push|exact Hscan|].
    intros Hr'. cbn in Hr, Hr'. congruence.
  - destruct Hinv as (Hrun & Hfifo & Hscan & Hidle).
    unfold Refactor.defer. cbv zeta.
    change (isRunning (push Deferred t s)) with (isRunning s).
    destruct (isRunning s) eqn:Hr; cbn [negb].
    + apply inv_intro; [cbn; congruence|by apply fifo_push|exact Hscan|].
      cbn. congruence.
    + apply refactor_runQueue_inv;
        [cbn; congruence|by apply fifo_push|exact Hscan|].
      cbn. congruence.
  - destruct Hinv as (Hrun & Hfifo & Hscan & Hidle). unfold Refactor.tick.
    destruct (runner s) as [|ph [k|]|] eqn:Hr.
    + apply inv_intro; rewrite ?Hr; done.
    + destruct (exec k s) as [s' r] eqn:He.
      apply exec_frame in He as [Ha _ _ (es & Hh & Hn) (ps & Hq & Hlanes)].
      apply suspend_inv.
      * by rewrite Ha, Hrun.
      * intros l. rewrite Hq, pushes_app, Hfifo, Hh, pops_app, Hlanes.
        by rewrite (pops_neutral _ es Hn), app_nil_r, app_assoc.
      * rewrite Hh, scan_app, Hscan. cbn. by rewrite scan_neutral.
    + assert (ready (record Resume s)) as Hready.
      { split; [done|]. split.
        - by apply fifo_record.
        - cbn. by rewrite scan_app, Hscan. }
      destruct ph; [by apply refactor_main_loop_inv|by apply deferred_loop_inv].
    + apply inv_intro; rewrite ?Hr; done.
Qed.

Lemma refactor_run_inv evs s : inv s -> inv (Refactor.run evs s).
Proof.
  revert s. induction evs as [|e evs IH]; intros s Hs; [done|].
  cbn. apply IH. by apply refactor_step_inv.
Qed.

(** *** The refactored runner takes the items in turn *)











End QueueFacts.

(** * The scheduler *)

Module Scheduler.
Import Queue Trace Behaviour Scenarios QueueFacts.

Lemma reachable_inv h evs : inv (run evs (createQueue h)).
Proof. apply run_inv, createQueue_inv. Qed.



Lemma prioritize_running p s :
  isRunning s = true -> prioritize p s = push Priority p s.
Proof. apply (enqueue_running Priority). Qed.

(** C2.  A priority item queued while the first loop has an item in
    flight leaves that item and the runner as they are, and from then on
    no main-lane item is taken before the whole priority lane, the new
    item included, has been taken in order; a turn of the first loop
    takes the head of the priority lane when there is one, else the head
    of the main lane. *)
Theorem C2_priority_before_pending_main h evs0 rest p :
  let s := run evs0 (createQueue h) in
  runner s = Awaiting MainPhase rest ->
  let s' := prioritize p s in
  (runner s' = runner s /\ history s' = history s
   /\ mainQueue s' = mainQueue s /\ priorityQueue s' = priorityQueue s ++ [p])
  /\ (forall evs pre m post,
        gained s' (run evs s') = pre ++ Pop Main m :: post ->
        (priorityQueue s ++ [p]) `prefix_of` pops Priority pre)
  /\ (forall s0 q qs, priorityQueue s0 = q :: qs ->
        main_loop s0 = invoke MainPhase Priority q qs s0)
  /\ (forall s0 m ms, priorityQueue s0 = [] -> mainQueue s0 = m :: ms ->
        main_loop s0 = invoke MainPhase Main m ms s0).
Proof.
  intros s Hr s'. pose proof (reachable_inv h evs0) as Hinv. fold s in Hinv.
  assert (isRunning s = true) as Hrun.
  { destruct Hinv as (-> & _). by rewrite Hr. }
  assert (s' = push Priority p s) as Hs' by by apply prioritize_running.
  split; [by rewrite Hs'|]. split; [|split].
  - intros evs pre m post Hg.
    assert (inv s') as Hinv' by apply (step_inv (Enqueue Priority p) s Hinv).
    pose proof (priority_first evs s' pre m post Hinv' Hg) as Hp.
    by rewrite Hs' in Hp.
  - intros s0 q qs Hq. unfold main_loop. by rewrite Hq.
  - intros s0 m ms Hq Hm. unfold main_loop. by rewrite Hq, Hm.
Qed.

(** C2 at a queue with [c] in flight and [a] waiting: the priority item
    [p] is taken after [c] has returned and before [a]. *)
Lemma C2_witness :
  runner (run c_in_flight (createQueue consoleHandler))
  = Awaiting MainPhase (Some (say "c"))
  /\ gained (prioritize (say "p") (run c_in_flight (createQueue consoleHandler)))
       (run (ticks 3)
          (prioritize (say "p") (run c_in_flight (createQueue consoleHandler))))
     = [Out (Effect "c"); Resume; Pop Priority (say "p"); Out (Effect "p");
        Resume; Pop Main item_a; Out (Effect "a")]
  /\ [say "p"] `prefix_of` pops Priority
       [Out (Effect "c"); Resume; Pop Priority (say "p"); Out (Effect "p");
        Resume].
Proof.
  assert (runner (run c_in_flight (createQueue consoleHandler))
          = Awaiting MainPhase (Some (say "c"))) as Hr by reflexivity.
  split; [exact Hr|]. split; [reflexivity|].
  exact (proj1 (proj2 (C2_priority_before_pending_main consoleHandler
           c_in_flight _ (say "p") Hr))
         (ticks 3)
         [Out (Effect "c"); Resume; Pop Priority (say "p"); Out (Effect "p");
          Resume]
         item_a [Out (Effect "a")] eq_refl).
Defined.

(** The statement of C3 fails on the code: the second loop does not look
    at the other lanes.  After [deferred_1] has called a chained method
    of its own queue, the main lane holds that call, and the next job
    takes [deferred_2] all the same. *)
Lemma C3_counterexample :
  ~ (forall h evs e pre d post,
       gained (run evs (createQueue h)) (step e (run evs (createQueue h)))
       = pre ++ Pop Deferred d :: post ->
       priorityQueue (run evs (createQueue h)) = []
       /\ mainQueue (run evs (createQueue h)) = []).
Proof.
  intros H.
  destruct (H consoleHandler two_deferred Tick [Resume] deferred_2
              [Out (Effect "d2")] eq_refl) as [_ Hm].
  discriminate Hm.
Qed.

(** C3, amended.  A job takes a deferred item only when the runner was
    already in its second loop, or when both other lanes were empty; and
    whenever the queue is idle the deferred lane is empty and every
    deferred item ever pushed has been taken, in the order of the
    pushes. *)
Theorem C3_deferred_lane h evs :
  (forall e pre d post,
     gained (run evs (createQueue h)) (step e (run evs (createQueue h)))
     = pre ++ Pop Deferred d :: post ->
     runner (run evs (createQueue h)) = Awaiting DeferredPhase None
     \/ (priorityQueue (run evs (createQueue h)) = []
         /\ mainQueue (run evs (createQueue h)) = []))
  /\ (isRunning (run evs (createQueue h)) = false ->
      deferredQueue (run evs (createQueue h)) = []
      /\ pops Deferred (history (run evs (createQueue h)))
         = pushes Deferred (enqueued (run evs (createQueue h)))).
Proof.
  pose proof (reachable_inv h evs) as Hinv. split.
  - intros e pre d post Hg.
    by destruct (step_pop _ _ _ _ _ _ Hinv Hg) as (_ & _ & Hd & _); auto.
  - intros Hidle. destruct Hinv as (_ & Hf & _ & Hd).
    split; [by apply Hd|]. rewrite (Hf Deferred). cbn.
    by rewrite (Hd Hidle), app_nil_r.
Qed.

Lemma C3_witness :
  isRunning (run (two_deferred ++ ticks 2) (createQueue consoleHandler)) = false
  /\ pops Deferred
       (history (run (two_deferred ++ ticks 2) (createQueue consoleHandler)))
     = [deferred_1; deferred_2].
Proof.
  assert (isRunning (run (two_deferred ++ ticks 2) (createQueue consoleHandler))
          = false) as Hidle by reflexivity.
  split; [exact Hidle|].
  exact (proj2 (proj2 (C3_deferred_lane consoleHandler
                         (two_deferred ++ ticks 2)) Hidle)).
Defined.

Lemma tick_no_start s : inv s -> Start ∉ gained s (tick s).
Proof.
  intros Hinv Hin. unfold tick in Hin.
  destruct (runner s) as [|ph [k|]|] eqn:Hr.
  - rewrite gained_refl in Hin. by apply not_elem_of_nil in Hin.
  - destruct (exec k s) as [s' r] eqn:He.
    apply exec_frame in He as [_ _ _ (es & Hh & Hn) _].
    destruct (suspend_shape ph _ s' r es Hh Hn) as (es' & H1 & H2 & _).
    rewrite (gained_app _ _ _ H1) in Hin.
    rewrite Forall_forall in H2. by specialize (H2 _ Hin).
  - assert (looped ph (record Resume s) (loop ph (record Resume s))) as Hl.
    { destruct ph; [apply main_loop_shape|by apply deferred_loop_shape]. }
    destruct Hl as [ph' l t [es Hh Hes _] _ _ _ _|Hh _ _];
      cbn in Hh; rewrite <-app_assoc in Hh;
      rewrite (gained_app _ _ _ Hh) in Hin.
    + cbn in Hin. apply elem_of_cons in Hin as [?|Hin]; [done|].
      apply elem_of_cons in Hin as [?|Hin]; [done|].
      rewrite Forall_forall in Hes. by specialize (Hes _ Hin).
    + cbn in Hin. apply elem_of_cons in Hin as [?|Hin]; [done|].
      apply elem_of_cons in Hin as [?|Hin]; [done|].
      by apply not_elem_of_nil in Hin.
  - rewrite gained_refl in Hin. by apply not_elem_of_nil in Hin.
Qed.

Lemma ticks_no_start n : forall s, inv s -> Start ∉ gained s (run (ticks n) s).
Proof.
  induction n as [|n IH]; intros s Hinv Hin.
  - cbn in Hin. rewrite gained_refl in Hin. by apply not_elem_of_nil in Hin.
  - rewrite ticks_S, gained_run_cons in Hin.
    apply elem_of_app in Hin as [Hin|Hin].
    + by apply (tick_no_start s Hinv).
    + by apply (IH (step Tick s) (step_inv Tick s Hinv)).
Qed.

Lemma enqueue_idle_starts l x s :
  isRunning s = false -> exists d, gained s (enqueue l x s) = Start :: d.
Proof.
  intros Hidle.
  assert (enqueue l x s
          = main_loop (record Start (set_isRunning true (push l x s)))) as ->.
  { destruct l; cbn; unfold addToQueue, prioritize, defer, runQueue; cbn;
      by rewrite Hidle. }
  destruct (extends_main_loop (record Start (set_isRunning true (push l x s))))
    as [(d & Hd) _].
  exists d. apply gained_app. rewrite Hd. cbn. by rewrite <-app_assoc.
Qed.

(** C9.  While the runner is in its second loop, a call of
    [addToQueue] or [prioritize] (by the deferred item in flight, or from
    outside) is the push alone: [runQueue] returns at its guard.  The
    item then stays in its lane: whatever jobs follow, an item of the
    main or priority lane is taken only after the runner has stopped and
    has been started again; jobs that only resume the queue never start
    it, so they never take the item; the next call made while the queue
    is idle does start it. *)
Theorem C9_pending_during_deferred_drain h evs0 :
  draining (run evs0 (createQueue h)) ->
  (forall l x, enqueue l x (run evs0 (createQueue h))
               = push l x (run evs0 (createQueue h)))
  /\ (forall evs pre l t post,
        gained (run evs0 (createQueue h)) (run evs (run evs0 (createQueue h)))
        = pre ++ Pop l t :: post ->
        l <> Deferred -> exists p1 p2, pre = p1 ++ Stop :: p2 /\ Start ∈ p2)
  /\ (forall n l, l <> Deferred ->
        pops l (gained (run evs0 (createQueue h))
                       (run (ticks n) (run evs0 (createQueue h)))) = []
        /\ lane_of l (run evs0 (createQueue h))
             `prefix_of` lane_of l (run (ticks n) (run evs0 (createQueue h))))
  /\ (forall evs l x,
        isRunning (run evs (createQueue h)) = false ->
        exists d, gained (run evs (createQueue h))
                         (enqueue l x (run evs (createQueue h))) = Start :: d).
Proof.
  intros Hd. pose proof (reachable_inv h evs0) as Hinv.
  set (s := run evs0 (createQueue h)) in *.
  assert (isRunning s = true) as Hrun.
  { destruct Hinv as (-> & _). destruct Hd as [r ->]. done. }
  split; [|split; [|split]].
  - intros l x. by apply enqueue_running.
  - intros evs pre l t post Hg Hl. by eapply drain_keeps_out; eauto.
  - intros n l Hl.
    assert (pops l (gained s (run (ticks n) s)) = []) as Hp.
    { destruct (pops l (gained s (run (ticks n) s))) as [|t ts] eqn:Hp; [done|].
      exfalso.
      assert (exists pre post, gained s (run (ticks n) s) = pre ++ Pop l t :: post)
        as (pre & post & Hg).
      { clear -Hp. revert t ts Hp.
        induction (gained s (run (ticks n) s)) as [|x g IH]; intros t ts Hp;
          [discriminate|].
        destruct x as [|l' t'| | | | |];
          try (destruct (IH _ _ Hp) as (pre & post & ->);
               by eexists (_ :: pre), post).
        unfold pops in Hp. cbn in Hp. destruct (decide (l' = l)) as [->|Hne].
        - injection Hp as -> _. by exists [], g.
        - destruct (IH _ _ Hp) as (pre & post & ->).
          by eexists (_ :: pre), post. }
      destruct (drain_keeps_out _ _ _ _ _ _ Hinv (or_introl Hd) Hg Hl)
        as (p1 & p2 & -> & Hs).
      apply (ticks_no_start n s Hinv). rewrite Hg.
      apply elem_of_app. left. apply elem_of_app. right. by right. }
    split; [done|].
    pose proof (lanes_between s (run (ticks n) s) l Hinv
                  (run_inv _ _ Hinv) (extends_run _ _)) as Hpre.
    by rewrite Hp in Hpre.
  - intros evs l x Hidle. by apply enqueue_idle_starts.
Qed.

(** C9 after [deferred_1] has called a chained method of its own queue:
    five jobs later the call still waits in the main lane, and the next
    chained call, made while the queue is idle, is what gets it taken. *)
Lemma C9_witness :
  draining (run two_deferred (createQueue consoleHandler))
  /\ [say "m"] `prefix_of`
       mainQueue (run (ticks 5) (run two_deferred (createQueue consoleHandler)))
  /\ gained (run (two_deferred ++ ticks 5) (createQueue consoleHandler))
       (run (two_deferred ++ ticks 5 ++ [Enqueue Main (say "n")])
            (createQueue consoleHandler))
     = [Start; Pop Main (say "m"); Out (Effect "m")].
Proof.
  assert (draining (run two_deferred (createQueue consoleHandler))) as Hd
    by by exists None.
  split; [exact Hd|]. split; [|reflexivity].
  exact (proj2 (proj1 (proj2 (proj2
           (C9_pending_during_deferred_drain consoleHandler two_deferred Hd)))
           5 Main ltac:(discriminate))).
Defined.

End Scheduler.

(** * Chained calls *)

Module ChainFacts.
Import Queue Trace Behaviour Chain Scenarios QueueFacts.

Lemma resolveArgs_plain eager fn vs : forall acc,
  resolveArgs eager (map Plain vs) acc fn = fn (acc ++ map Plain vs).
Proof.
  induction vs as [|v vs IH]; intros acc; cbn.
  - by rewrite app_nil_r.
  - rewrite IH. by rewrite <-app_assoc.
Qed.

(** The path of [try { body } catch (error) { defaultErrorHandler(error,
    context) }]. *)
Lemma play_guarded h body c :
  play h (Try body (fun error => Report error c Ret))
  = match outcome h body with
    | None => (outputs h body, awaits h body, None)
    | Some e => (outputs h body ++ [HandlerCall (hname h) e c],
                 awaits h body, hraises h e c)
    end.
Proof.
  unfold outputs, awaits, outcome. cbn [play].
  destruct (play h body) as [[es n] [e|]]; cbn [fst snd]; [|done].
  destruct (hraises h e c); cbn; by rewrite Nat.add_0_r.
Qed.

Lemma play_logged h body :
  play h (Try body (fun error => Emit (ConsoleError error) Ret))
  = match outcome h body with
    | None => (outputs h body, awaits h body, None)
    | Some e => (outputs h body ++ [Out (ConsoleError e)], awaits h body, None)
    end.
Proof.
  unfold outputs, awaits, outcome. cbn [play].
  destruct (play h body) as [[es n] [e|]]; cbn [fst snd]; [|done].
  by rewrite Nat.add_0_r.
Qed.

Lemma dead_ticks n : forall s, runner s = Dead -> run (ticks n) s = s.
Proof.
  induction n as [|n IH]; intros s Hd; [done|].
  rewrite ticks_S, run_cons. cbn [step]. unfold tick. rewrite Hd.
  by apply IH.
Qed.

(** The statement of C4 fails on the code in two ways.  In index.js the
    [catch] of a chained call logs the error with [console.error]: there
    is no error handler to configure and no context.  And in every
    version the items of the priority lane (and of the deferred lane) are
    called by [runQueue] without a [try]: a listener that throws ends the
    runner, the error handler is not called, and the chained call made
    afterwards is never taken, however many jobs follow. *)
Lemma C4_counterexample :
  ~ (forall fn args e,
       outcome consoleHandler (resolveArgs true args [] fn) = Some e ->
       exists c, HandlerCall (hname consoleHandler) e c
                 ∈ outputs consoleHandler (thunk_original fn args))
  /\ ~ (forall (l : lane) (e : error) (later : work), exists n,
       (exists c, HandlerCall (hname consoleHandler) e c
                  ∈ history (run (Enqueue l (Throw e) :: Enqueue Main later
                                  :: ticks n) (createQueue consoleHandler)))
       /\ Pop Main later
          ∈ history (run (Enqueue l (Throw e) :: Enqueue Main later :: ticks n)
                         (createQueue consoleHandler))).
Proof.
  split.
  - intros H. destruct (H fails_late [] "aborted" eq_refl) as (c & Hc).
    cbn in Hc. repeat (apply elem_of_cons in Hc as [?|Hc]; [done|]).
    by apply not_elem_of_nil in Hc.
  - intros H. destruct (H Priority "boom" (say "later")) as (n & _ & Hpop).
    change (Enqueue Priority (Throw "boom") :: Enqueue Main (say "later")
            :: ticks n) with (handler_throws ++ ticks n) in Hpop.
    rewrite run_app, dead_ticks in Hpop by reflexivity.
    cbn in Hpop. by repeat (apply elem_of_cons in Hpop as [?|Hpop]; [done|]);
      apply not_elem_of_nil in Hpop.
Qed.

(** C4, amended: the function a chained call pushes on the main lane.
    When its action throws, or a thenable among its arguments or its
    result rejects, with error [e], the function itself still fulfils,
    after the same number of awaits, having called the error handler once,
    last, with [e] and the context of the call (in index.js: having
    logged [e] with console.error), provided the handler returns; the
    context made for a method names the method and the selector; and a
    burst of such calls, failing or not, is run to its end in the order of
    the calls, after which the queue is idle. *)
Theorem C4_chained_call_failure h :
  (forall fn context args e,
     outcome h (resolveArgs true args [] fn) = Some e ->
     hraises h e (Message context) = None ->
     outcome h (thunk_handled fn context args) = None
     /\ outputs h (thunk_handled fn context args)
        = outputs h (resolveArgs true args [] fn)
          ++ [HandlerCall (hname h) e (Message context)]
     /\ awaits h (thunk_handled fn context args)
        = awaits h (resolveArgs true args [] fn))
  /\ (forall fn args e,
     outcome h (resolveArgs true args [] fn) = Some e ->
     outcome h (thunk_original fn args) = None
     /\ outputs h (thunk_original fn args)
        = outputs h (resolveArgs true args [] fn) ++ [Out (ConsoleError e)])
  /\ (forall name sel, name <> "$" -> name <> "$$" ->
     giveContext (Some name) sel
     = "The method: " +:+ name +:+ " called on: " +:+ sel)
  /\ (forall c cs,
     (forall e context, hraises h e context = None) ->
     Forall (fun c : action * string * list arg =>
               quiet (resolveArgs true c.2 [] c.1.1)) (c :: cs) ->
     let thunk := fun c : action * string * list arg =>
                    thunk_handled c.1.1 c.1.2 c.2 in
     let s := run (burst h (map thunk (c :: cs))) (createQueue h) in
     history s = in_turn h (thunk c) (map thunk cs)
     /\ isRunning s = false /\ mainQueue s = []).
Proof.
  split; [|split; [|split]].
  - intros fn context args e He Hh. unfold thunk_handled, outputs, awaits, outcome.
    by rewrite play_guarded, He, Hh.
  - intros fn args e He. unfold thunk_original, outputs, outcome.
    by rewrite play_logged, He.
  - intros name sel H1 H2. unfold giveContext.
    destruct name as [|a1 [|a2 [|a3 name]]]; try done.
    + destruct a1 as [[] [] [] [] [] [] [] []]; done.
    + destruct a1 as [[] [] [] [] [] [] [] []]; try done.
      destruct a2 as [[] [] [] [] [] [] [] []]; done.
    + destruct a1 as [[] [] [] [] [] [] [] []]; try done.
      destruct a2 as [[] [] [] [] [] [] [] []]; done.
  - intros c cs Hh Hq thunk s.
    assert (Forall quiet (map thunk (c :: cs))) as Hq'.
    { apply Forall_fmap. eapply Forall_impl; [exact Hq|].
      intros [[fn ctx] args] Hb. cbn. by split. }
    assert (Forall (fun t => outcome h t = None) (map thunk (c :: cs))) as Ho'.
    { apply Forall_fmap, Forall_forall. intros [[fn ctx] args] _.
      unfold thunk, thunk_handled, outcome. cbn [fst snd compose].
      rewrite play_guarded. destruct (Behaviour.outcome h _); [|done].
      by rewrite Hh. }
    destruct (burst_in_turn h _ _ Hq' Ho') as (H1 & H2 & _ & _ & H3 & _).
    done.
Qed.

(** C4 at three chained calls the second of which awaits its argument,
    starts an animation and fails: the handler is called once, with the
    context of [transition], and the third call runs. *)
Lemma C4_witness :
  history (run (burst consoleHandler
                  (map (fun c : action * string * list arg =>
                          thunk_handled c.1.1 c.1.2 c.2) three_calls))
               (createQueue consoleHandler))
  = [Start;
     Pop Main (thunk_handled set_text "The method: text called on: #title"
                 [Plain "hi"]);
     Out (Effect "textContent = hi"); Resume;
     Pop Main (thunk_handled fails_late
                 "The method: transition called on: #title"
                 [Thenable (inl "keyframes")]);
     Out (Effect "animate");
     HandlerCall "console.error" "aborted"
       (Message "The method: transition called on: #title");
     Resume;
     Pop Main (thunk_handled set_text "The method: text called on: #title"
                 [Plain "hi"]);
     Out (Effect "textContent = hi"); Resume; Stop].
Proof.
  refine (proj1 (proj2 (proj2 (proj2 (C4_chained_call_failure consoleHandler)))
                  (set_text, giveContext (Some "text") "#title", [Plain "hi"])
                  (tail three_calls) _ _)).
  - done.
  - repeat constructor.
Defined.

(** The statement of C5 fails on the code when the queue is idle and no
    argument is a thenable: [addToQueue] calls [runQueue], which calls
    the pushed function on the same stack, and the action has run when
    the call returns. *)
Lemma C5_counterexample :
  ~ (forall (f : facade nat) fn args o,
       Out o ∉ gained (queue f) (queue (applyFunc_original fn args f))).
Proof.
  intros H.
  apply (H fresh_facade set_text [Plain "hi"] (Effect "textContent = hi")).
  cbn. apply elem_of_cons. right. apply elem_of_cons. right. by left.
Qed.

Lemma call_shape w s :
  (exists ps, enqueued (addToQueue w s) = enqueued s ++ (Main, w) :: ps)
  /\ (isRunning s = true -> addToQueue w s = push Main w s)
  /\ (isRunning s = false -> priorityQueue s = [] -> mainQueue s = [] ->
      addToQueue w s
      = invoke MainPhase Main w []
          (record Start (set_isRunning true (push Main w s)))).
Proof.
  split; [|split].
  - unfold addToQueue. destruct (extends_runQueue (push Main w s)) as [_ (ps & ->)].
    exists ps. cbn. by rewrite <-app_assoc.
  - apply (enqueue_running Main).
  - intros Hidle Hp Hm. unfold addToQueue, runQueue.
    change (isRunning (push Main w s)) with (isRunning s). rewrite Hidle.
    unfold main_loop. cbn [priorityQueue mainQueue record set_isRunning push
      note_push set_lane lane_of]. by rewrite Hp, Hm.
Qed.

Lemma call_runs_action w o k catch s :
  w = Try (Emit o k) catch ->
  isRunning s = false -> priorityQueue s = [] -> mainQueue s = [] ->
  exists d, gained s (addToQueue w s) = Start :: Pop Main w :: Out o :: d.
Proof.
  intros Hw Hidle Hp Hm.
  destruct (call_shape w s) as (_ & _ & ->); try done.
  unfold invoke.
  set (s0 := record (Pop Main w) (set_lane Main []
               (record Start (set_isRunning true (push Main w s))))).
  assert (exec w s0 = exec (Try k catch) (record (Out o) s0)) as ->
    by by rewrite Hw.
  destruct (extends_suspend MainPhase (exec (Try k catch) (record (Out o) s0)))
    as [(d1 & H1) _].
  destruct (extends_exec (Try k catch) (record (Out o) s0)) as [(d0 & H0) _].
  exists (d0 ++ d1). apply gained_app. rewrite H1, H0. cbn. by list_norm.
Qed.

(** C5, amended.  A chained call pushes its function on the main lane
    and returns the facade it was made on.  When the queue is running,
    the call is the push alone and the function has not been called when
    the call returns.  When the queue is idle with nothing left in the
    priority and main lanes, the runner starts inside the call and calls
    the function at once: every step of the function up to its first
    await has been made when the call returns, and, when no argument is a
    thenable, this includes the first step of the action itself.  The
    same holds of the version with the error handler. *)
Theorem C5_call_returns_facade (T : Type) (f : facade T) fn args :
  (selector (applyFunc_original fn args f) = selector f
   /\ raw (applyFunc_original fn args f) = raw f)
  /\ (exists ps, enqueued (queue (applyFunc_original fn args f))
                 = enqueued (queue f) ++ (Main, thunk_original fn args) :: ps)
  /\ (isRunning (queue f) = true ->
      queue (applyFunc_original fn args f)
      = push Main (thunk_original fn args) (queue f))
  /\ (isRunning (queue f) = false ->
      priorityQueue (queue f) = [] -> mainQueue (queue f) = [] ->
      queue (applyFunc_original fn args f)
      = invoke MainPhase Main (thunk_original fn args) []
          (record Start (set_isRunning true
             (push Main (thunk_original fn args) (queue f))))
      /\ forall vs o k, args = map Plain vs -> fn args = Emit o k ->
           exists d, gained (queue f) (queue (applyFunc_original fn args f))
                     = Start :: Pop Main (thunk_original fn args) :: Out o :: d)
  /\ (forall context,
      (isRunning (queue f) = true ->
       queue (applyFunc fn context args f)
       = push Main (thunk_handled fn context args) (queue f))
      /\ (isRunning (queue f) = false ->
          priorityQueue (queue f) = [] -> mainQueue (queue f) = [] ->
          forall vs o k, args = map Plain vs -> fn args = Emit o k ->
          exists d, gained (queue f) (queue (applyFunc fn context args f))
                    = Start :: Pop Main (thunk_handled fn context args)
                      :: Out o :: d)).
Proof.
  split; [done|].
  destruct (call_shape (thunk_original fn args) (queue f)) as (H1 & H2 & H3).
  split; [exact H1|]. split; [exact H2|]. split.
  - intros Hidle Hp Hm. split; [by apply H3|].
    intros vs o k Ha Hf. eapply call_runs_action; try done.
    unfold thunk_original. rewrite Ha, resolveArgs_plain. cbn [app].
    by rewrite <-Ha, Hf.
  - intros context.
    destruct (call_shape (thunk_handled fn context args) (queue f))
      as (_ & H2' & _).
    split; [exact H2'|].
    intros Hidle Hp Hm vs o k Ha Hf. eapply call_runs_action; try done.
    unfold thunk_handled. rewrite Ha, resolveArgs_plain. cbn [app].
    by rewrite <-Ha, Hf.
Qed.

(** C5 at [text("hi")] on a facade whose queue is idle. *)
Lemma C5_witness :
  isRunning (queue fresh_facade) = false
  /\ exists d, gained (queue fresh_facade)
                 (queue (applyFunc_original set_text [Plain "hi"] fresh_facade))
               = Start :: Pop Main (thunk_original set_text [Plain "hi"])
                 :: Out (Effect "textContent = hi") :: d.
Proof.
  split; [reflexivity|].
  exact (proj2 (proj1 (proj2 (proj2 (proj2
           (C5_call_returns_facade nat fresh_facade set_text [Plain "hi"]))))
           eq_refl eq_refl eq_refl)
         ["hi"] (Effect "textContent = hi") Ret eq_refl eq_refl).
Defined.

End ChainFacts.

(** * The target resolver *)

Module ResolverFacts.
Import Queue Chain Dom Scenarios.










End ResolverFacts.

(** * The promise adapter *)

Module PromisifyFacts.
Import Queue Promisify Scenarios.

Lemma settled_apply now c s :
  settled s = true ->
  settled (apply now c s) = true /\ outcome (apply now c s) = outcome s
  /\ decided (apply now c s) = decided s /\ reports (apply now c s) = reports s.
Proof.
  intros Hs. destruct c; cbn; unfold Resolve, Reject; rewrite ?Hs; done.
Qed.

Lemma settled_timer timeout meta s : settled s = true -> timer timeout meta s = s.
Proof. intros Hs. unfold timer. by rewrite Hs. Qed.

Lemma settled_jobs timeout meta js : forall s,
  settled s = true ->
  settled (run_jobs timeout meta js s) = true
  /\ outcome (run_jobs timeout meta js s) = outcome s
  /\ decided (run_jobs timeout meta js s) = decided s
  /\ reports (run_jobs timeout meta js s) = reports s.
Proof.
  induction js as [|j js IH]; intros s Hs; [done|].
  cbn [run_jobs foldl]. destruct j as [now c|]; cbn [job_step].
  - destruct (settled_apply now c s Hs) as (H1 & H2 & H3 & H4).
    destruct (IH _ H1) as (? & ? & ? & ?). unfold run_jobs in *.
    repeat split; congruence.
  - rewrite settled_timer by done. by apply IH.
Qed.

Lemma settled_elapse timeout meta evs : forall now s,
  settled s = true ->
  outcome (elapse timeout meta now true evs s) = outcome s
  /\ decided (elapse timeout meta now true evs s) = decided s
  /\ reports (elapse timeout meta now true evs s) = reports s
  /\ settled (elapse timeout meta now true evs s) = true.
Proof.
  induction evs as [|[gap c] evs IH]; intros now s Hs; cbn [elapse]; [done|].
  cbn [negb andb].
  destruct (settled_apply (now + gap) c s Hs) as (H1 & H2 & H3 & H4).
  destruct (IH (now + gap) _ H1) as (? & ? & ? & ?).
  repeat split; congruence.
Qed.

(** While nothing but [setErrorHandler] is called, the promise stays as
    the executor left it; the timer then resolves it, which fulfils it
    when it is still pending, and reports once, to the handler then in
    place. *)
Lemma quiet_elapse timeout meta evs : forall now s,
  settled s = false -> reports s = [] ->
  forallb no_callback (early timeout now evs) = true ->
  let s' := elapse timeout meta now false evs s in
  outcome s' = resolve empty_result (outcome s)
  /\ decided s'
     = decide_at (delay timeout) (outcome s) (resolve empty_result (outcome s))
                 (decided s)
  /\ settled s' = true
  /\ reports s'
     = [(hname (handler_after (defaultErrorHandler s) (early timeout now evs)),
         timeout_error timeout, meta)].
Proof.
  induction evs as [|[gap c] evs IH]; intros now s Hs Hr He; cbn [elapse early].
  - unfold timer. rewrite Hs. cbn. by rewrite Hr.
  - cbn [negb andb early] in *.
    destruct (delay timeout <=? now + gap) eqn:Hle.
    + assert (settled (timer timeout meta s) = true) as Ht
        by by (unfold timer; rewrite Hs).
      destruct (settled_apply (now + gap) c _ Ht) as (H1 & H2 & H3 & H4).
      destruct (settled_elapse timeout meta evs (now + gap) _ H1)
        as (-> & -> & -> & ->).
      rewrite H2, H3, H4. unfold timer. rewrite Hs. cbn. by rewrite Hr.
    + cbn [forallb] in He. apply andb_prop in He as [Hc He].
      destruct c as [| |h']; try discriminate.
      exact (IH (now + gap) (apply (now + gap) (SetErrorHandler h') s) Hs Hr He).
Qed.

Lemma at_once_quiet cs : forall s,
  forallb no_callback cs = true ->
  settled s = false -> outcome s = Pending -> reports s = [] ->
  let s' := foldl (fun s c => apply 0 c s) s cs in
  settled s' = false /\ outcome s' = Pending /\ reports s' = []
  /\ decided s' = decided s
  /\ defaultErrorHandler s' = handler_after (defaultErrorHandler s) cs.
Proof.
  induction cs as [|c cs IH]; intros s Hc Hs Ho Hr; [done|].
  cbn [forallb] in Hc. apply andb_prop in Hc as [Hc Hcs].
  destruct c as [| |h']; try discriminate.
  exact (IH (apply 0 (SetErrorHandler h') s) Hcs Hs Ho Hr).
Qed.

Lemma delay_small timeout :
  (N.of_nat timeout <= 2147483647)%N -> delay timeout = timeout.
Proof.
  intros Hle. unfold delay. cbv zeta.
  rewrite N.mod_small by lia.
  destruct (N.ltb_spec (N.of_nat timeout) 2147483648); [|lia].
  apply Nat2N.id.
Qed.

(** What [promisify] comes to when neither [Resolve] nor [Reject] is
    called before the timer is due.  The timer then finds [settled]
    false: it resolves the promise with the empty string and calls the
    error handler in place at that time, once, with the error
    [Timeout: <timeout>ms exceeded.] and the [meta] that was passed.
    When the wrapped function has returned, the promise is fulfilled by
    that, at the time the delay is over.  When it has thrown, the
    executor has rejected the promise with what was thrown, without
    setting [settled]: the promise stays rejected, and the timeout is
    reported all the same.  The timeout is 5000 and [meta] is
    [{fnName: "anonymous", fnArgs: "unknown"}] when they are left out. *)
Lemma timeout_reported fn timeout meta h :
  forallb no_callback (at_once fn ++ early timeout 0 (later fn)) = true ->
  (throws fn = None ->
     outcome (promisify fn (Some timeout) (Some meta) h) = Fulfilled EmptyString
     /\ decided (promisify fn (Some timeout) (Some meta) h)
        = Some (delay timeout))
  /\ (forall e, throws fn = Some e ->
     outcome (promisify fn (Some timeout) (Some meta) h) = Rejected e
     /\ decided (promisify fn (Some timeout) (Some meta) h) = Some 0)
  /\ reports (promisify fn (Some timeout) (Some meta) h)
     = [(hname (handler_after h (at_once fn ++ early timeout 0 (later fn))),
         timeout_error timeout, meta)]
  /\ promisify fn None (Some meta) h = promisify fn (Some 5000) (Some meta) h
  /\ promisify fn (Some timeout) None h
     = promisify fn (Some timeout) (Some (Meta "anonymous" "unknown")) h.
Proof.
  intros Hq. rewrite forallb_app in Hq. apply andb_prop in Hq as [Hq1 Hq2].
  unfold promisify. cbv [default from_option id].
  set (s0 := {| settled := false; outcome := Pending; decided := None;
                defaultErrorHandler := h; reports := [] |}).
  destruct (at_once_quiet (at_once fn) s0 Hq1 eq_refl eq_refl eq_refl)
    as (Hs & Ho & Hr & Hd & Hh).
  unfold handler_after. rewrite foldl_app. fold (handler_after h (at_once fn)).
  fold (handler_after (handler_after h (at_once fn)) (early timeout 0 (later fn))).
  assert (exists s1, executor fn s0 = s1 /\ settled s1 = false
            /\ reports s1 = [] /\ decided s1 = match throws fn with
                                                  | Some _ => Some 0
                                                  | None => None
                                                  end
            /\ outcome s1 = match throws fn with
                            | Some e => Rejected e
                            | None => Pending
                            end
            /\ defaultErrorHandler s1 = handler_after h (at_once fn))
    as (s1 & -> & Hs1 & Hr1 & Hd1 & Ho1 & Hh1).
  { eexists. split; [reflexivity|]. unfold executor.
    destruct (throws fn); cbn; rewrite ?Ho, ?Hd; by repeat split. }
  destruct (quiet_elapse timeout meta (later fn) 0 s1 Hs1 Hr1 Hq2)
    as (H1 & H2 & _ & H4).
  rewrite H1, H2, H4, Ho1, Hd1, Hh1.
  split; [|split; [|split; [|done]]].
  - by intros ->.
  - by intros e ->.
  - done.
Qed.

(** C8 fails on the code at a wrapped function that throws before it
    returns, here with a timeout of 50ms: neither callback is called, yet
    the promise is not resolved with the empty string at 50ms, it is
    rejected at once with what was thrown; and at 50ms the timeout is
    still reported, for a promise that has long been rejected.  The
    executor of [new Promise] rejects on a throw without going through
    [Reject], so that [settled] stays false.  A function that returns and
    never calls back behaves as the claim says. *)
Lemma C8_throwing_function :
  forallb no_callback
    (at_once throws_at_once ++ early 50 0 (later throws_at_once)) = true
  /\ outcome (promisify throws_at_once (Some 50) None consoleHandler)
     = Rejected "boom"
  /\ decided (promisify throws_at_once (Some 50) None consoleHandler) = Some 0
  /\ reports (promisify throws_at_once (Some 50) None consoleHandler)
     = [("console.error", "Timeout: 50ms exceeded.", default_meta)]
  /\ outcome (promisify never_calls (Some 50) None consoleHandler)
     = Fulfilled EmptyString
  /\ decided (promisify never_calls (Some 50) None consoleHandler) = Some 50
  /\ reports (promisify never_calls (Some 50) None consoleHandler)
     = [("console.error", "Timeout: 50ms exceeded.", default_meta)].
Proof.
  pose proof (timeout_reported throws_at_once 50 default_meta consoleHandler
                eq_refl) as (_ & H1 & H2 & _ & H3).
  destruct (H1 "boom" eq_refl) as [Ho Hd].
  pose proof (timeout_reported never_calls 50 default_meta consoleHandler
                eq_refl) as (H4 & _ & H5 & _ & H6).
  destruct (H4 eq_refl) as [Ho' Hd'].
  rewrite (delay_small 50) in Hd' by (cbn; lia).
  unfold default_meta in *. rewrite H3, H6.
  by split_and!.
Qed.

Lemma decided_jobs timeout meta js : forall s,
  outcome s <> Pending -> outcome (run_jobs timeout meta js s) = outcome s.
Proof.
  induction js as [|j js IH]; intros s Hs; [done|].
  cbn [run_jobs foldl].
  assert (outcome (job_step timeout meta j s) = outcome s) as Hj.
  { destruct j as [now [v|r|h']|]; cbn; unfold Resolve, Reject, timer;
      destruct (settled s); cbn; try done; by destruct (outcome s). }
  unfold run_jobs in IH. rewrite IH; [done|]. by rewrite Hj.
Qed.

Lemma reports_apply now c s : reports (apply now c s) = reports s.
Proof.
  destruct c; cbn; unfold Resolve, Reject; by destruct (settled s).
Qed.

Lemma reports_executor fn s : reports (executor fn s) = reports s.
Proof.
  unfold executor.
  assert (forall cs s, reports (foldl (fun s c => apply 0 c s) s cs) = reports s)
    as H.
  { induction cs as [|c cs IH]; intros s'; [done|].
    cbn [foldl]. by rewrite IH, reports_apply. }
  destruct (throws fn); cbn; by rewrite H.
Qed.

(** The error handler is called at most once. *)
Lemma reports_elapse timeout meta evs : forall now fired s,
  (fired = true -> settled s = true) ->
  exists extra, reports (elapse timeout meta now fired evs s) = reports s ++ extra
                /\ length extra <= 1.
Proof.
  assert (forall s : state, exists extra,
            reports s = reports s ++ extra /\ length extra <= 1) as Hnone.
  { intros s. exists []. split; [by rewrite app_nil_r|cbn; lia]. }
  assert (forall s, exists extra,
            reports (timer timeout meta s) = reports s ++ extra
            /\ length extra <= 1) as Htimer.
  { intros s. unfold timer. destruct (settled s); cbn; [apply Hnone|].
    eexists. split; [done|]. cbn. lia. }
  induction evs as [|[gap c] evs IH]; intros now fired s Hf; cbn [elapse].
  - destruct fired; [apply Hnone|apply Htimer].
  - destruct fired; cbn [negb andb].
    + destruct (settled_apply (now + gap) c s (Hf eq_refl)) as (H1 & _ & _ & H4).
      destruct (settled_elapse timeout meta evs (now + gap) _ H1)
        as (_ & _ & -> & _).
      rewrite H4. apply Hnone.
    + destruct (delay timeout <=? now + gap).
      * assert (settled (timer timeout meta s) = true) as Ht.
        { unfold timer. by destruct (settled s) eqn:Hs. }
        destruct (settled_apply (now + gap) c _ Ht) as (H1 & _ & _ & H4).
        destruct (settled_elapse timeout meta evs (now + gap) _ H1)
          as (_ & _ & -> & _).
        rewrite H4. apply Htimer.
      * destruct (IH (now + gap) false (apply (now + gap) c s))
          as (extra & -> & Hlen); [done|].
        exists extra. by rewrite reports_apply.
Qed.

(** C10.  Once [settled] is set, [Resolve], [Reject] and the callback of
    the timer give back the state they were given, and whatever is called
    afterwards, the outcome of the promise, the time at which it was
    decided and the calls of the error handler stay the same.  In any
    state, an outcome that is no longer pending is not changed by
    anything that is called; and from the call of the wrapper to the end,
    the error handler is called at most once. *)
Theorem C10_settles_once timeout meta s :
  settled s = true ->
  (forall now value, Resolve now value s = s)
  /\ (forall now reason, Reject now reason s = s)
  /\ timer timeout meta s = s
  /\ (forall js,
        settled (run_jobs timeout meta js s) = true
        /\ outcome (run_jobs timeout meta js s) = outcome s
        /\ decided (run_jobs timeout meta js s) = decided s
        /\ reports (run_jobs timeout meta js s) = reports s)
  /\ (forall s0 js, outcome s0 <> Pending ->
        outcome (run_jobs timeout meta js s0) = outcome s0)
  /\ (forall fn t m h, length (reports (promisify fn t m h)) <= 1).
Proof.
  intros Hs. split; [|split; [|split; [|split; [|split]]]].
  - intros now value. unfold Resolve. by rewrite Hs.
  - intros now reason. unfold Reject. by rewrite Hs.
  - by apply settled_timer.
  - intros js. by apply settled_jobs.
  - intros s0 js. by apply decided_jobs.
  - intros fn t m h. unfold promisify.
    destruct (reports_elapse (default 5000 t) (default default_meta m)
                (later fn) 0 false
                (executor fn {| settled := false; outcome := Pending;
                                decided := None; defaultErrorHandler := h;
                                reports := [] |}))
      as (extra & -> & Hlen); [done|].
    by rewrite reports_executor.
Qed.

(** C10 at a promise resolved after 20ms: the timer at 50ms and the
    rejection at 100ms change nothing. *)
Lemma C10_witness :
  settled (Resolve 20 (Value "first")
             {| settled := false; outcome := Pending; decided := None;
                defaultErrorHandler := consoleHandler; reports := [] |}) = true
  /\ outcome (run_jobs 50 default_meta
                [Timer; Outside 100 (CallReject "second")]
                (Resolve 20 (Value "first")
                   {| settled := false; outcome := Pending; decided := None;
                      defaultErrorHandler := consoleHandler; reports := [] |}))
     = Fulfilled "first"
  /\ reports (run_jobs 50 default_meta
                [Timer; Outside 100 (CallReject "second")]
                (Resolve 20 (Value "first")
                   {| settled := false; outcome := Pending; decided := None;
                      defaultErrorHandler := consoleHandler; reports := [] |}))
     = []
  /\ outcome (promisify calls_twice (Some 50) None consoleHandler)
     = Fulfilled "first"
  /\ reports (promisify calls_twice (Some 50) None consoleHandler) = [].
Proof.
  split; [reflexivity|].
  pose proof (C10_settles_once 50 default_meta
                (Resolve 20 (Value "first")
                   {| settled := false; outcome := Pending; decided := None;
                      defaultErrorHandler := consoleHandler; reports := [] |})
                eq_refl) as (_ & _ & _ & H & _).
  destruct (H [Timer; Outside 100 (CallReject "second")]) as (_ & Ho & _ & Hr).
  split; [exact Ho|]. split; [exact Hr|]. split; reflexivity.
Defined.

End PromisifyFacts.

(** * Changes of the page *)

Module MutateFacts.
Import Queue Chain Dom Mutate.

Lemma bind_ok {A B} (m : M A) (f : A -> M B) s a s' :
  m s = (inl a, s') -> (m ≫= f) s = f a s'.
Proof. intros H. unfold mbind, M_bind. by rewrite H. Qed.

Lemma bind_throw {A B} (m : M A) (f : A -> M B) s e s' :
  m s = (inr e, s') -> (m ≫= f) s = (inr e, s').
Proof. intros H. unfold mbind, M_bind. by rewrite H. Qed.




Ltac step_m :=
  repeat (progress (unfold mbind, M_bind, mret, M_ret, new_node, call, throw,
                      cloneNode, replaceWith, remove, DOMActions; cbn)).







Lemma eqb_clone m : String.eqb (default "move" m) "clone" = cloning m.
Proof.
  unfold cloning. destruct m as [s|]; cbn.
  - destruct (String.eqb_spec s "clone") as [->|Hne].
    + by rewrite bool_decide_eq_true_2.
    + rewrite bool_decide_eq_false_2; congruence.
  - by rewrite bool_decide_eq_false_2.
Qed.





(** A loop whose turns all write their calls and make [c] new nodes. *)
Lemma steps_loop {A} (f : A -> nat -> M unit) (g : A -> nat -> list mutation)
    (c : nat) (l : list A) i s :
  (forall x k s, f x k s
     = (inl tt, {| log := log s ++ g x (fresh (doc s));
                   doc := {| content := content (doc s);
                             fresh := fresh (doc s) + c |} |})) ->
  forEachFrom i l f s
  = (inl tt,
     {| log := log s ++ mjoin (imap (fun k x => g x (fresh (doc s) + c * k)) l);
        doc := {| content := content (doc s);
                  fresh := fresh (doc s) + c * length l |} |}).
Proof.
  intros Hf. revert i s. induction l as [|x l IH]; intros i s.
  - destruct s as [lg [ct f0]]. cbn.
    by rewrite app_nil_r, Nat.mul_0_r, Nat.add_0_r.
  - cbn [forEachFrom]. erewrite bind_ok by apply Hf.
    rewrite IH. cbn [log doc content fresh length]. rewrite imap_cons.
    cbn [mjoin list_join]. rewrite <-app_assoc, Nat.mul_0_r, Nat.add_0_r.
    rewrite (imap_ext _ ((fun k x => g x (fresh (doc s) + c * k)) ∘ S) l)
      by (intros k y _; cbn; f_equal; lia).
    by replace (fresh (doc s) + c + c * length l)
      with (fresh (doc s) + c * S (length l)) by lia.
Qed.


Lemma placed_key o how :
  placed o = Some how -> default (Key append) (position o) = Key how.
Proof.
  unfold placed. destruct (position o) as [[a|]|]; cbn; congruence.
Qed.

Section Browser.
Variable valid : string -> bool.
Variable matches : string -> element -> bool.
Variable parse : bool -> string -> nat.
Variable as_options : element -> option options.







Local Abbreviation child_step copy pos sz parent :=
  (fun c : child =>
     getDOM valid matches parse c (Some sz) None ≫= fun domElements =>
       forEach domElements (fun domElement =>
         (if copy then cloneNode domElement
          else (mret domElement : M (option element)))
         ≫= fun node => DOMActions pos parent node)).

Lemma modifyDOM_unfold parent children o :
  modifyDOM valid matches parse parent children o
  = forEach children
      (child_step (cloning (mode o)) (default (Key append) (position o))
                  (default true (sanitize o)) parent).
Proof. unfold modifyDOM. by rewrite eqb_clone. Qed.













(** X10.  Without [all], a parent selector that matches nothing gives
    the array [[null]], which is not empty: [moveOrClone] goes on and
    throws a [TypeError] at the insertion, after having made the copy in
    clone mode; no insertion is made. *)
Theorem X10_moveOrClone_no_parent (sel : string) (e : element) (o : options)
    (how : DOMAction) (d : document) :
  startsWith (trim sel) "<" = false ->
  valid sel = true ->
  querySelectorAll matches sel d = [] ->
  default false (all o) = false ->
  placed o = Some how ->
  let r := run (moveOrClone valid matches parse [Known (Node e)]
                  (Known (Str sel)) o) d in
  thrown r = Some (TypeError (action_name how))
  /\ done r = Api (QuerySelector sel)
              :: (if cloning (mode o) then [CloneNode e (fresh d)] else []).
Proof.
  intros Hs Hv Hq Hall Hhow r.
  assert (Hget : getDOM valid matches parse (Known (Str sel)) (sanitize o)
                   (all o) {| log := []; doc := d |}
                 = (inl [None],
                    {| log := [Api (QuerySelector sel)]; doc := d |})).
  { unfold getDOM, getDOMElement. rewrite Hs, Hv, Hall. cbn [doc negb].
    unfold querySelector. by rewrite Hq. }
  eassert (Hr : r = _).
  { unfold r, run, moveOrClone. erewrite bind_ok by apply Hget.
    cbn [length]. rewrite bool_decide_eq_false_2 by done.
    unfold forEach at 1. cbn [forEachFrom].
    rewrite modifyDOM_unfold, (placed_key _ _ Hhow).
    unfold forEach at 1. cbn [forEachFrom].
    reflexivity. }
  rewrite Hr. clear Hr r. unfold thrown, done, forEach.
  destruct (cloning (mode o)); by step_m.
Qed.

End Browser.

(** X11.  The [addStyleSheet] method goes through [toOneOrMany] like
    the other methods: on a facade over an array of [n] elements the
    style element is created, filled and appended to the head [n]
    times. *)
Theorem X11_addStyleSheet_each (l : list (option element)) (rules : string)
    (d : document) :
  let r := run (addStyleSheet_method (Many l) rules) d in
  thrown r = None
  /\ done r = mjoin (imap (fun i _ => sheet rules (fresh d + i)) l).
Proof.
  intros r.
  eassert (Hr : r = _).
  { unfold r, run, addStyleSheet_method, toOneOrMany, forEach.
    erewrite (steps_loop _ (fun _ n => sheet rules n) 1); [reflexivity|].
    intros x k s. unfold addStyleSheet, sheet. step_m.
    by rewrite <-!app_assoc, Nat.add_1_r. }
  rewrite Hr. unfold thrown, done. cbn [fst snd log doc app].
  split; [done|]. f_equal. apply imap_ext. intros k x _. cbn.
  by rewrite Nat.add_0_r.
Qed.

Lemma split_nonempty c s : split c s <> [].
Proof.
  destruct s as [|a s]; [done|]. cbn.
  destruct (Ascii.eqb a c); [done|]. by destruct (split c s).
Qed.

Lemma join_cons_char by_ a piece pieces :
  join by_ (String a piece :: pieces) = String a (join by_ (piece :: pieces)).
Proof. by destruct pieces. Qed.

Lemma join_split c by_ s : join by_ (split c s) = replaceAll c by_ s.
Proof.
  induction s as [|a s IH]; [done|]. cbn [split replaceAll].
  destruct (Ascii.eqb a c).
  - rewrite <-IH. pose proof (split_nonempty c s).
    by destruct (split c s).
  - rewrite <-IH. pose proof (split_nonempty c s).
    destruct (split c s) as [|piece pieces]; [done|].
    apply join_cons_char.
Qed.

(** X12.  [rules.trim().split(";").join(" !important;")] rewrites every
    semicolon of the trimmed rules to [ !important;] and changes nothing
    else, so that a last declaration which no semicolon closes is not
    marked; and splitting and joining on the same separator gives the
    string back. *)
Theorem X12_importantRules_replaces (rules : string) :
  importantRules rules = replaceAll ";" " !important;" (trim rules)
  /\ join ";" (split ";" rules) = rules.
Proof.
  split; [apply join_split|].
  rewrite join_split. induction rules as [|a s IH]; [done|].
  cbn [replaceAll]. destruct (Ascii.eqb_spec a ";") as [->|Hne].
  - cbn. by rewrite IH.
  - by rewrite IH.
Qed.

(** Whatever each turn keeps is kept by the loop, whether it throws or
    not. *)
Lemma forEachFrom_keeps {A} (P : world -> Prop) (f : A -> nat -> M unit) l :
  (forall x k s, P s -> P (f x k s).2) ->
  forall i s, P s -> P (forEachFrom i l f s).2.
Proof.
  intros Hf. induction l as [|x l IH]; intros i s HP; [done|].
  cbn [forEachFrom]. unfold mbind, M_bind.
  pose proof (Hf x i s HP) as Hx.
  destruct (f x i s) as [[[]|e] s']; [|done]. by apply IH.
Qed.

(** X13.  With [match: "cycle"] and an empty array of replacements,
    [index % 0] is [NaN] and no replacement is found: [become] makes no
    DOM call and does not throw, whatever the elements are, [null]
    included. *)
Theorem X13_become_cycle_nothing (es : list (option element))
    (options : option options) (d : document) :
  match_ (default become_default options) = Some "cycle" ->
  let r := run (become (Elements es) (Elements []) options) d in
  thrown r = None /\ done r = [].
Proof.
  intros Hcycle r.
  assert (Hr : r = (inl tt, {| log := []; doc := d |})).
  { unfold r, become, run. cbn [makeArray].
    unfold mbind, M_bind, mret, M_ret. cbn beta iota.
    rewrite Hcycle, bool_decide_eq_true_2 by done.
    rewrite bool_decide_eq_false_2 by done. cbn [length].
    generalize 0. induction es as [|e es IH]; intros i; [done|].
    cbn [forEachFrom]. unfold mbind, M_bind. by rewrite IH. }
  by rewrite Hr.
Qed.

Section Sanitizer.
Variable valid : string -> bool.
Variable matches : string -> element -> bool.
Variable parse : bool -> string -> nat.

(** X14.  Unless [sanitize: false] is passed, [modifyDOM] never sets
    [innerHTML]: whatever the parent, the children and the mode are, and
    whether it throws or not. *)
Theorem X14_modifyDOM_sanitizes (parent : option element) (children : list child)
    (o : options) (d : document) :
  sanitize o <> Some false ->
  forall e markup,
    Api (SetInnerHTML e markup)
    ∉ done (run (modifyDOM valid matches parse parent children o) d).
Proof.
  intros Hs e markup.
  assert (Hsz : default true (sanitize o) = true).
  { destruct (sanitize o) as [[|]|]; done. }
  unfold done, run. rewrite modifyDOM_unfold, Hsz. unfold forEach at 1.
  apply (forEachFrom_keeps (fun s => Api (SetInnerHTML e markup) ∉ log s)).
  - intros c k s HP. unfold mbind at 1, M_bind at 1.
    destruct c as [i|]; [|done]. cbn [getDOM].
    set (r := getDOMElement valid matches parse i (Some true) None (doc s)).
    assert (Hcalls : Api (SetInnerHTML e markup) ∉ map Api (calls r)).
    { unfold r. destruct i as [str|n]; cbn; [|by apply not_elem_of_nil].
      destruct (startsWith (trim str) "<"); cbn.
      - intros Hin. apply elem_of_cons in Hin as [?|Hin]; [done|].
        apply elem_of_cons in Hin as [?|Hin]; [done|].
        by apply not_elem_of_nil in Hin.
      - destruct (valid str); cbn; [|by apply not_elem_of_nil].
        intros Hin. apply elem_of_cons in Hin as [?|Hin]; [done|].
        by apply not_elem_of_nil in Hin. }
    destruct (raised r); [done|].
    apply (forEachFrom_keeps (fun s => Api (SetInnerHTML e markup) ∉ log s)).
    + intros x j s' HP'.
      destruct (cloning (mode o)), x as [n|], parent as [p|],
        (default (Key append) (position o)) as [a|];
        step_m; try done;
        rewrite ?not_elem_of_app; repeat split; try done;
        intros Hin; apply elem_of_cons in Hin as [?|Hin]; try done;
        by apply not_elem_of_nil in Hin.
    + cbn [log]. apply not_elem_of_app. by split.
  - cbn. apply not_elem_of_nil.
Qed.

End Sanitizer.










(** X10 at a parent selector that matches nothing, in clone mode. *)
Lemma X10_witness :
  thrown (run (moveOrClone Scenarios.not_empty Scenarios.no_match
                 Scenarios.one_child [Known (Node 1)] (Known (Str "#missing"))
                 Examples.copies) Scenarios.page_3)
  = Some (TypeError "append")
  /\ done (run (moveOrClone Scenarios.not_empty Scenarios.no_match
                  Scenarios.one_child [Known (Node 1)]
                  (Known (Str "#missing")) Examples.copies) Scenarios.page_3)
     = [Api (QuerySelector "#missing"); CloneNode 1 4].
Proof.
  refine (X10_moveOrClone_no_parent Scenarios.not_empty Scenarios.no_match
    Scenarios.one_child "#missing" 1 Examples.copies append Scenarios.page_3
    _ _ _ _ _); reflexivity.
Defined.

(** X13 at an element and a [null], the options left out. *)
Lemma X13_witness :
  done (run (become (Elements [Some 1; None]) (Elements []) None)
            Scenarios.page_3) = [].
Proof.
  refine (proj2 (X13_become_cycle_nothing [Some 1; None] None
                   Scenarios.page_3 _)).
  reflexivity.
Defined.

(** X14 at markup given as a child, with no options. *)
Lemma X14_witness :
  Api (SetInnerHTML 4 "<b>")
  ∉ done (run (modifyDOM Scenarios.not_empty Scenarios.no_match
                 Scenarios.one_child (Some 1) [Known (Str "<b>")] no_options)
              Scenarios.page_3).
Proof.
  refine (X14_modifyDOM_sanitizes Scenarios.not_empty Scenarios.no_match
    Scenarios.one_child (Some 1) [Known (Str "<b>")] no_options
    Scenarios.page_3 _ 4 "<b>").
  discriminate.
Defined.

End MutateFacts.

(** * The arguments of a chained call *)

Module ArgumentFacts.
Import Queue Trace Behaviour Chain Settling.

Lemma resolveArgs_fulfilled h fn args : forall acc,
  forallb fulfils args = true ->
  play h (resolveArgs true args acc fn)
  = let '(es, n, r) := play h (fn (acc ++ map settle args)) in
    (es, thenables args + n, r).
Proof.
  induction args as [|a args IH]; intros acc Hf.
  - cbn. rewrite app_nil_r. by destruct (play h (fn acc)) as [[es n] r].
  - cbn in Hf. apply andb_prop in Hf as [Ha Hf].
    destruct a as [v|[v|e]]; [| |done]; cbn [resolveArgs play].
    + rewrite (IH _ Hf), <-app_assoc. done.
    + rewrite (IH _ Hf), <-app_assoc. cbn [map settle app].
      by destruct (play h (fn _)) as [[es n] r].
Qed.

Lemma resolveArgs_rejected h fn e post pre : forall acc,
  forallb fulfils pre = true ->
  play h (resolveArgs true (pre ++ Thenable (inr e) :: post) acc fn)
  = ([], S (thenables pre), Some e).
Proof.
  induction pre as [|a pre IH]; intros acc Hf; [done|].
  cbn in Hf. apply andb_prop in Hf as [Ha Hf].
  destruct a as [v|[v|e']]; [| |done]; cbn [app resolveArgs play].
  - by rewrite (IH _ Hf).
  - by rewrite (IH _ Hf).
Qed.

(** X15.  When no argument rejects, a chained call awaits once for each
    thenable among its arguments and then calls the action with the
    arguments in the order given, each thenable replaced by its value;
    with [eager = false] (the refactored [eachArgument]) nothing is
    awaited and the action gets the arguments as they are. *)
Theorem X15_arguments_in_order (h : handler) (fn : action) (args : list arg) :
  forallb fulfils args = true ->
  play h (resolveArgs true args [] fn)
  = (outputs h (fn (map settle args)),
     thenables args + awaits h (fn (map settle args)),
     outcome h (fn (map settle args)))
  /\ resolveArgs false args [] fn = fn args.
Proof.
  intros Hf. split.
  - rewrite (resolveArgs_fulfilled h fn args [] Hf). cbn [app].
    unfold outputs, awaits, outcome.
    by destruct (play h (fn (map settle args))) as [[es n] r].
  - clear. change (fn args) with (fn ([] ++ args)). generalize (@nil arg).
    induction args as [|a args IH]; intros acc.
    + cbn. by rewrite app_nil_r.
    + destruct a as [v|r]; cbn; rewrite IH, <-app_assoc; done.
Qed.

(** X16.  When an argument rejects, the action is never called and the
    arguments after it are never awaited: the path ends with that error
    after one await for each thenable up to it, the rejected one
    included; in index.js the error is logged with [console.error] and
    the item completes. *)
Theorem X16_argument_rejected (h : handler) (fn : action) (pre post : list arg)
    (e : error) :
  forallb fulfils pre = true ->
  play h (resolveArgs true (pre ++ Thenable (inr e) :: post) [] fn)
  = ([], S (thenables pre), Some e)
  /\ play h (thunk_original fn (pre ++ Thenable (inr e) :: post))
     = ([Out (ConsoleError e)], S (thenables pre), None).
Proof.
  intros Hf. split; [by apply resolveArgs_rejected|].
  unfold thunk_original. cbn [play].
  rewrite (resolveArgs_rejected h fn e post pre [] Hf). cbn.
  by rewrite Nat.add_0_r.
Qed.


(** X15 at a plain argument followed by a thenable that fulfils. *)
Lemma X15_witness :
  play consoleHandler
    (resolveArgs true [Plain "a"; Thenable (inl "b")] [] Examples.show_args)
  = ([Out (Effect "a,b")], 1, None).
Proof.
  refine (proj1 (X15_arguments_in_order consoleHandler Examples.show_args
                   [Plain "a"; Thenable (inl "b")] _)).
  reflexivity.
Defined.

(** X16 at a thenable that fulfils, one that rejects, and one more. *)
Lemma X16_witness :
  play consoleHandler
    (thunk_original Examples.show_args
       [Thenable (inl "a"); Thenable (inr "no"); Thenable (inl "never")])
  = ([Out (ConsoleError "no")], 2, None).
Proof.
  refine (proj2 (X16_argument_rejected consoleHandler Examples.show_args
                   [Thenable (inl "a")] [Thenable (inl "never")] "no" _)).
  reflexivity.
Defined.

End ArgumentFacts.

(** * The lanes, a crashed runner, [defer] *)

Module LaneFacts.
Import Queue Trace Behaviour QueueFacts Scheduler.

(** X17.  In every run of the queue of index.js and of the refactored
    queue, each lane, the priority and the deferred lane included, is
    first in, first out: what was pushed on it is what was taken from
    it, in order, followed by what still waits in it. *)
Theorem X17_every_lane_fifo :
  (forall h evs l, let s := run evs (createQueue h) in
     pushes l (enqueued s) = pops l (history s) ++ lane_of l s)
  /\ (forall h evs l, let s := Refactor.run evs (createQueue h) in
     pushes l (enqueued s) = pops l (history s) ++ lane_of l s).
Proof.
  split.
  - intros h evs l s. destruct (reachable_inv h evs) as (_ & Hf & _).
    apply Hf.
  - intros h evs l s.
    destruct (refactor_run_inv evs _ (createQueue_inv h)) as (_ & Hf & _).
    apply Hf.
Qed.

Lemma dead_run evs : forall s,
  inv s -> runner s = Dead ->
  runner (run evs s) = Dead /\ history (run evs s) = history s.
Proof.
  induction evs as [|e evs IH]; intros s Hinv Hd; [done|].
  rewrite run_cons. destruct (step_dead e s Hinv Hd) as [Hd' Hg].
  pose proof (history_gained _ _ (extends_step e s)) as Hh.
  rewrite Hg, app_nil_r in Hh.
  destruct (IH (step e s) (step_inv e s Hinv) Hd') as [H1 H2].
  split; [done|]. by rewrite H2.
Qed.

(** X18.  Once [runQueue] has rejected (an item threw outside a [try]),
    whatever is called afterwards no item is ever taken again: the
    runner stays dead, nothing more is written to the record,
    [isRunning] stays [true], and what is enqueued only lengthens its
    lane. *)
Theorem X18_crash_is_final (h : handler) (evs evs' : list event) :
  let s := run evs (createQueue h) in
  runner s = Dead ->
  let s' := run evs' s in
  runner s' = Dead /\ isRunning s' = true /\ history s' = history s
  /\ forall l, lane_of l s `prefix_of` lane_of l s'.
Proof.
  intros s Hd s'.
  pose proof (reachable_inv h evs) as Hinv. fold s in Hinv.
  destruct (dead_run evs' s Hinv Hd) as [Hd' Hh]. fold s' in Hd', Hh.
  pose proof (run_inv evs' s Hinv) as Hinv'. fold s' in Hinv'.
  split_and!; [done| |done|].
  - destruct Hinv' as (Hr & _). by rewrite Hr, Hd'.
  - intros l.
    pose proof (lanes_between s s' l Hinv Hinv' (extends_run evs' s)) as Hp.
    assert (gained s s' = []) as Hg by (apply gained_app; by rewrite app_nil_r).
    by rewrite Hg in Hp.
Qed.

(** X19.  [defer] on an idle queue whose other lanes are empty does not
    defer: the runner starts inside the call and calls the function at
    once.  (From inside an item the queue is running and [defer] is the
    push alone.) *)
Theorem X19_defer_idle_runs_at_once :
  (forall h evs fn, let s := run evs (createQueue h) in
     isRunning s = false -> priorityQueue s = [] -> mainQueue s = [] ->
     exists es, gained s (defer fn s) = Start :: Pop Deferred fn :: es
                /\ Forall (fun x => passive x = true) es)
  /\ (forall h evs fn, let s := Refactor.run evs (createQueue h) in
     isRunning s = false -> mainQueue s = [] ->
     exists es, gained s (Refactor.defer fn s) = Start :: Pop Deferred fn :: es
                /\ Forall (fun x => passive x = true) es).
Proof.
  split.
  - intros h evs fn s Hidle Hp Hm.
    destruct (reachable_inv h evs) as (_ & _ & _ & Hd). fold s in Hd.
    specialize (Hd Hidle).
    set (s1 := record Start (set_isRunning true (push Deferred fn s))).
    assert (defer fn s = invoke DeferredPhase Deferred fn [] s1) as ->.
    { unfold defer, runQueue. cbn. rewrite Hidle. cbn.
      unfold main_loop. cbn. rewrite Hp, Hm. unfold after_main. cbn.
      rewrite Hd, Hp, Hm. cbn. unfold deferred_loop. cbn. by rewrite Hd. }
    destruct (invoke_shape DeferredPhase Deferred fn [] s1) as [es Hh Hes _].
    exists es. split; [|done]. apply gained_app. rewrite Hh. cbn.
    by rewrite <-app_assoc.
  - intros h evs fn s Hidle Hm.
    destruct (refactor_run_inv evs _ (createQueue_inv h)) as (_ & _ & _ & Hd).
    fold s in Hd. specialize (Hd Hidle).
    set (s1 := record Start (set_isRunning true (push Deferred fn s))).
    assert (Refactor.defer fn s = invoke DeferredPhase Deferred fn [] s1) as ->.
    { unfold Refactor.defer, Refactor.runQueue. cbn. rewrite Hidle. cbn.
      unfold Refactor.main_loop. cbn. rewrite Hm. unfold Refactor.after_main.
      cbn. rewrite Hd, Hm. cbn. unfold deferred_loop. cbn. by rewrite Hd. }
    destruct (invoke_shape DeferredPhase Deferred fn [] s1) as [es Hh Hes _].
    exists es. split; [|done]. apply gained_app. rewrite Hh. cbn.
    by rewrite <-app_assoc.
Qed.


(** X18 at a listener that throws, followed by a chained call and a
    job. *)
Lemma X18_witness :
  runner (run [Enqueue Main Scenarios.item_a; Tick]
            (run [Enqueue Priority (Throw "boom")] (createQueue consoleHandler)))
  = Dead
  /\ mainQueue (run [Enqueue Main Scenarios.item_a; Tick]
                  (run [Enqueue Priority (Throw "boom")]
                       (createQueue consoleHandler)))
     = [Scenarios.item_a].
Proof.
  pose proof (X18_crash_is_final consoleHandler
                [Enqueue Priority (Throw "boom")]
                [Enqueue Main Scenarios.item_a; Tick] eq_refl)
    as (H1 & _ & _ & _).
  split; [exact H1|reflexivity].
Defined.

(** X19 at a queue that was just made. *)
Lemma X19_witness :
  exists es,
    gained (createQueue consoleHandler)
           (defer Scenarios.item_a (createQueue consoleHandler))
    = Start :: Pop Deferred Scenarios.item_a :: es
    /\ Forall (fun x => passive x = true) es.
Proof.
  exact (proj1 X19_defer_idle_runs_at_once consoleHandler []
           Scenarios.item_a eq_refl eq_refl eq_refl).
Defined.

End LaneFacts.

(** * The promise adapter: a callback in time *)

Module AdapterFacts.
Import Queue Promisify PromisifyFacts.

(** What the first call of [Resolve] or [Reject] makes of a pending
    promise. *)
Lemma first_apply now c s :
  settled s = false -> outcome s = Pending -> no_callback c = false ->
  settled (apply now c s) = true
  /\ outcome (apply now c s)
     = match c with
       | CallResolve x => resolve x Pending
       | CallReject e => Rejected e
       | SetErrorHandler _ => Pending
       end
  /\ reports (apply now c s) = reports s.
Proof.
  intros Hs Ho Hc. destruct c as [x|e|h']; [| |done]; cbn.
  - unfold Resolve. rewrite Hs. cbn. by rewrite Ho.
  - unfold Reject. rewrite Hs. cbn. by rewrite Ho.
Qed.

Lemma quiet_apply now c s :
  no_callback c = true ->
  settled (apply now c s) = settled s
  /\ outcome (apply now c s) = outcome s
  /\ reports (apply now c s) = reports s.
Proof. intros Hc. by destruct c. Qed.

(** Once the flag is set nothing changes any more, whether the timer
    has fired or not. *)
Lemma settled_elapse_any timeout meta evs : forall now fired s,
  settled s = true ->
  outcome (elapse timeout meta now fired evs s) = outcome s
  /\ reports (elapse timeout meta now fired evs s) = reports s
  /\ settled (elapse timeout meta now fired evs s) = true.
Proof.
  induction evs as [|[gap c] evs IH]; intros now fired s Hs; cbn [elapse].
  - destruct fired; [done|]. by rewrite settled_timer.
  - destruct (settled_apply (now + gap) c s Hs) as (H1 & H2 & _ & H4).
    destruct (negb fired && (delay timeout <=? now + gap)).
    + rewrite settled_timer by done.
      destruct (IH (now + gap) true _ H1) as (? & ? & ?).
      split_and!; congruence.
    + destruct (IH (now + gap) fired _ H1) as (? & ? & ?).
      split_and!; congruence.
Qed.

Lemma settled_calls cs : forall s,
  settled s = true ->
  settled (foldl (fun s c => apply 0 c s) s cs) = true
  /\ outcome (foldl (fun s c => apply 0 c s) s cs) = outcome s
  /\ reports (foldl (fun s c => apply 0 c s) s cs) = reports s.
Proof.
  induction cs as [|c cs IH]; intros s Hs; [done|]. cbn [foldl].
  destruct (settled_apply 0 c s Hs) as (H1 & H2 & _ & H4).
  destruct (IH _ H1) as (? & ? & ?). split_and!; congruence.
Qed.

Lemma first_early timeout meta c evs : forall now pre rest s,
  early timeout now evs = pre ++ c :: rest ->
  forallb no_callback pre = true -> no_callback c = false ->
  settled s = false -> outcome s = Pending ->
  let s' := elapse timeout meta now false evs s in
  settled s' = true
  /\ outcome s' = match c with
                  | CallResolve x => resolve x Pending
                  | CallReject e => Rejected e
                  | SetErrorHandler _ => Pending
                  end
  /\ reports s' = reports s.
Proof.
  induction evs as [|[gap c0] evs IH]; intros now pre rest s He Hpre Hc Hs Ho.
  - cbn in He. by destruct pre.
  - cbn [early] in He. cbn [elapse negb andb].
    destruct (delay timeout <=? now + gap); [by destruct pre|].
    destruct pre as [|p pre]; cbn in He; injection He as -> He.
    + destruct (first_apply (now + gap) c s Hs Ho Hc) as (H1 & H2 & H3).
      destruct (settled_elapse_any timeout meta evs (now + gap) false _ H1)
        as (? & ? & ?).
      cbn zeta. split_and!; congruence.
    + cbn in Hpre. apply andb_prop in Hpre as [Hp Hpre].
      destruct (quiet_apply (now + gap) p s Hp) as (H1 & H2 & H3).
      destruct (IH (now + gap) pre rest (apply (now + gap) p s) He Hpre Hc)
        as (? & ? & ?); [congruence..|].
      cbn zeta. split_and!; congruence.
Qed.

Lemma first_at_once c : forall pre rest s,
  forallb no_callback pre = true -> no_callback c = false ->
  settled s = false -> outcome s = Pending ->
  let s' := foldl (fun s c => apply 0 c s) s (pre ++ c :: rest) in
  settled s' = true
  /\ outcome s' = match c with
                  | CallResolve x => resolve x Pending
                  | CallReject e => Rejected e
                  | SetErrorHandler _ => Pending
                  end
  /\ reports s' = reports s.
Proof.
  induction pre as [|p pre IH]; intros rest s Hpre Hc Hs Ho.
  - cbn [app foldl]. cbn zeta.
    destruct (first_apply 0 c s Hs Ho Hc) as (H1 & H2 & H3).
    destruct (settled_calls rest _ H1) as (? & ? & ?).
    split_and!; congruence.
  - cbn in Hpre. apply andb_prop in Hpre as [Hp Hpre].
    destruct (quiet_apply 0 p s Hp) as (H1 & H2 & H3).
    destruct (IH rest (apply 0 p s) Hpre Hc) as (? & ? & ?); [congruence..|].
    cbn [app foldl]. cbn zeta. split_and!; congruence.
Qed.

(** X20.  When the wrapped function returns without throwing and
    [Resolve] or [Reject] is called before the timer is due, at once or
    later, the first such call decides the promise, the timer finds
    [settled] set, and the error handler is never called.  The timer is
    due when the delay that [setTimeout] makes of the timeout is over:
    the timeout itself up to 2147483647, and what 32 bits leave of it
    above that. *)
Theorem X20_first_callback_wins (fn : behaviour) (timeout : option nat)
    (meta : option context) (h : handler) (pre rest : list call) (c : call) :
  throws fn = None ->
  at_once fn ++ early (default 5000 timeout) 0 (later fn) = pre ++ c :: rest ->
  forallb no_callback pre = true ->
  no_callback c = false ->
  let s := promisify fn timeout meta h in
  outcome s = match c with
              | CallResolve x => resolve x Pending
              | CallReject e => Rejected e
              | SetErrorHandler _ => Pending
              end
  /\ reports s = []
  /\ settled s = true.
Proof.
  intros Hthrow Hcalls Hpre Hc s. unfold s, promisify, executor.
  rewrite Hthrow.
  set (s0 := {| settled := false; outcome := Pending; decided := None;
                defaultErrorHandler := h; reports := [] |}).
  set (t := default 5000 timeout). fold t in Hcalls.
  set (m := default default_meta meta).
  destruct (QueueFacts.split_app _ _ _ _ _ Hcalls)
    as [(pre' & -> & Hearly)|(d2 & Hsync)].
  - rewrite forallb_app in Hpre. apply andb_prop in Hpre as [Hp1 Hp2].
    destruct (at_once_quiet (at_once fn) s0 Hp1) as (H1 & H2 & H3 & _);
      [done..|].
    destruct (first_early t m c (later fn) 0 pre' rest _ Hearly Hp2 Hc H1 H2)
      as (Ha & Hb & Hd).
    split_and!; [exact Hb|by rewrite Hd|exact Ha].
  - rewrite Hsync.
    destruct (first_at_once c pre d2 s0 Hpre Hc) as (H1 & H2 & H3); [done..|].
    destruct (settled_elapse_any t m (later fn) 0 false _ H1) as (Ha & Hb & Hd).
    split_and!; [by rewrite Ha|by rewrite Hb, H3|exact Hd].
Qed.


(** X20 at a function that resolves after 20ms and rejects after 100ms,
    with the default timeout. *)
Lemma X20_witness :
  outcome (promisify Scenarios.calls_twice None None consoleHandler)
  = Fulfilled "first"
  /\ reports (promisify Scenarios.calls_twice None None consoleHandler) = []
  /\ settled (promisify Scenarios.calls_twice None None consoleHandler) = true.
Proof.
  refine (X20_first_callback_wins Scenarios.calls_twice None None
    consoleHandler [] [CallReject "second"] (CallResolve (Value "first"))
    _ _ _ _); reflexivity.
Defined.

End AdapterFacts.
